(** * otf2psf: glyph bitmap engine, glyph-set assembly and PSF2 serialization

    A shallow embedding of the Rust sources [glyph.rs], [psf2_writer.rs],
    [unicode_table.rs], [errors.rs], [ttf_parser.rs] and
    [glyph_image_owned.rs].

    Conventions:
    - a byte ([u8]) and a [u32] are [Z] values in range; a [usize] length is
      a [nat] (64-bit, never reached here);
    - a Rust [String] is modelled by its sequence of [char]s, each a Unicode
      scalar value as a [Z]; [as_bytes] is the UTF-8 encoding of that
      sequence;
    - a computation that may fail with a typed error or abort with a panic
      returns an [outcome]. *)

From Stdlib Require Import ZArith List Lia Bool Sorting.Sorted Sorting.Permutation.
Import ListNotations.
Open Scope Z_scope.

(** ** Outcomes: [Result<A, E>] plus the possibility of a panic *)

Inductive outcome (A E : Type) : Type :=
| Ok (a : A)
| Err (e : E)
| Panic.
Arguments Ok {A E} a.
Arguments Err {A E} e.
Arguments Panic {A E}.

Definition bind {A B E} (m : outcome A E) (k : A -> outcome B E) : outcome B E :=
  match m with
  | Ok a => k a
  | Err e => Err e
  | Panic => Panic
  end.

Notation "x <- m ;; k" := (bind m (fun x => k))
  (at level 61, m at next level, right associativity).

(** The [?] operator with a [From] conversion of the error. *)
Definition map_err {A E F} (f : E -> outcome A F) (m : outcome A E) : outcome A F :=
  match m with
  | Ok a => Ok a
  | Err e => f e
  | Panic => Panic
  end.

(** [Result::unwrap]. *)
Definition unwrap {A E} (m : outcome A E) : outcome A E :=
  match m with
  | Ok a => Ok a
  | Err _ => Panic
  | Panic => Panic
  end.

(** ** Machine integers *)

Definition u32_max : Z := 2 ^ 32.

(** [x as u32] for a [usize] value: truncation modulo 2^32. *)
Definition usize_as_u32 (n : nat) : Z := Z.of_nat n mod u32_max.

(** [(x as f64 / 8.0).ceil() as usize] for a [u32] [x]: the division is
    exact in [f64] for every [u32], so this is the ceiling of [x / 8]. *)
Definition ceil_div8 (x : Z) : Z := (x + 7) / 8.

(** ** Errors ([errors.rs]) *)

(** [ab_glyph::GlyphImageFormat] *)
Inductive GlyphImageFormat :=
| Png | BitmapMono | BitmapMonoPacked | BitmapGray2 | BitmapGray2Packed
| BitmapGray4 | BitmapGray4Packed | BitmapGray8 | BitmapPremulBgra32.

Inductive GlyphError :=
| WrongDimensions (height width expected_height expected_width : Z)
| WrongLength (length expected_length : nat)
| PadTooSmall (height width pad_height pad_width : Z)
| GlyphImgFmtUnsupported (format : GlyphImageFormat)
| GlyphEmptyString.

Inductive GlyphSetError :=
| InconsistentDimensions (height width expected_height expected_width : Z)
| InconsistentLengths (length expected_length : nat)
| SetEmptyString.

(** [impl From<GlyphError> for GlyphSetError]: every variant other than
    [EmptyString] reaches [panic!]. *)
Definition glyph_set_error_from (e : GlyphError) : outcome unit GlyphSetError :=
  match e with
  | GlyphEmptyString => Err SetEmptyString
  | _ => Panic
  end.

(** [?] applied to a [Result<_, GlyphError>] in a function returning
    [Result<_, GlyphSetError>]. *)
Definition lift_glyph_error {A} (m : outcome A GlyphError) : outcome A GlyphSetError :=
  map_err (fun e => match glyph_set_error_from e with
                    | Ok _ => Panic
                    | Err e' => Err e'
                    | Panic => Panic
                    end) m.

(** ** Glyphs ([glyph.rs]) *)

Definition Grapheme := list Z.

Record Glyph := mkGlyph {
  height : Z;
  width : Z;
  data : list Z;
  grapheme : Grapheme
}.

(** The byte-aligned layout invariant of a glyph bitmap. *)
Definition glyph_inv (g : Glyph) : Prop :=
  Z.of_nat (length (data g)) = height g * ceil_div8 (width g).

(** [Glyph::add] *)
Definition add (self other : Glyph) : outcome Glyph GlyphError :=
  if negb (height self =? height other) || negb (width self =? width other) then
    Err (WrongDimensions (height self) (width self) (height other) (width other))
  else if negb (Nat.eqb (length (data self)) (length (data other))) then
    Err (WrongLength (length (data self)) (length (data other)))
  else
    let g := grapheme self ++ grapheme other in
    let d := map (fun '(a, b) => Z.lor a b) (combine (data self) (data other)) in
    Ok (mkGlyph (height self) (width self) d g).

(** [<[T]>::chunks_exact(n)]: panics when [n = 0]; drops the remainder. *)
Fixpoint chunks_exact_aux {A} (fuel : nat) (n : nat) (l : list A) : list (list A) :=
  match fuel with
  | O => []
  | S fuel' =>
      if Nat.ltb (length l) n then []
      else firstn n l :: chunks_exact_aux fuel' n (skipn n l)
  end.

Definition chunks_exact {A E} (n : nat) (l : list A) : outcome (list (list A)) E :=
  if Nat.eqb n 0 then Panic else Ok (chunks_exact_aux (length l) n l).

(** [Glyph::pad] *)
Definition pad (self : Glyph) (new_height new_width : Z) : outcome Glyph GlyphError :=
  if (height self >? new_height) || (width self >? new_width) then
    Err (PadTooSmall (height self) (width self) new_height new_width)
  else
    let self_row_length := Z.to_nat (ceil_div8 (width self)) in
    let padded_row_length := Z.to_nat (ceil_div8 new_width) in
    d <- (if Nat.ltb self_row_length padded_row_length then
            cs <- chunks_exact self_row_length (data self) ;;
            Ok (flat_map (fun chunk =>
                   chunk ++ repeat 0 (padded_row_length - self_row_length)) cs)
          else Ok (data self)) ;;
    let d' := d ++ repeat 0 (Z.to_nat (new_height - height self) * padded_row_length) in
    Ok (mkGlyph new_height new_width d' (grapheme self)).

(** ** Bit views ([bitvec] with [u8] storage and [Msb0] order) *)

Definition bits_of_byte (b : Z) : list bool :=
  map (fun i => Z.testbit b (Z.of_nat (7 - i))) (seq 0 8).

(** [view_bits::<Msb0>()] *)
Definition view_bits (bytes : list Z) : list bool := flat_map bits_of_byte bytes.

Fixpoint byte_of_bits_aux (bs : list bool) (acc : Z) (k : nat) : Z :=
  match k with
  | O => acc
  | S k' =>
      match bs with
      | [] => byte_of_bits_aux [] (acc * 2) k'
      | b :: bs' => byte_of_bits_aux bs' (acc * 2 + Z.b2z b) k'
      end
  end.

(** Up to eight bits, most significant first, zero-filled on the right. *)
Definition byte_of_bits (bs : list bool) : Z := byte_of_bits_aux bs 0 8.

(** [BitVec::into_vec]: the storage bytes; the unused bits of the last byte
    are zero, since [bitvec] grows its buffer with zeroed elements. *)
Fixpoint into_vec_aux (fuel : nat) (bs : list bool) : list Z :=
  match fuel with
  | O => []
  | S fuel' =>
      match bs with
      | [] => []
      | _ => byte_of_bits (firstn 8 bs) :: into_vec_aux fuel' (skipn 8 bs)
      end
  end.

Definition into_vec (bs : list bool) : list Z := into_vec_aux (length bs) bs.

(** [<[T]>::chunks(n)] for [n > 0]: the last chunk may be shorter. *)
Fixpoint chunks_aux {A} (fuel : nat) (n : nat) (l : list A) : list (list A) :=
  match fuel with
  | O => []
  | S fuel' =>
      match l with
      | [] => []
      | _ => firstn n l :: chunks_aux fuel' n (skipn n l)
      end
  end.

Definition chunks {A E} (n : nat) (l : list A) : outcome (list (list A)) E :=
  if Nat.eqb n 0 then Panic else Ok (chunks_aux (length l) n l).

(** [Itertools::intersperse] *)
Fixpoint intersperse {A} (sep : A) (l : list A) : list A :=
  match l with
  | [] => []
  | [x] => [x]
  | x :: l' => x :: sep :: intersperse sep l'
  end.

(** ** Embedded bitmaps *)

(** The fields of [ab_glyph::v2::GlyphImage] read by the converter. *)
Record GlyphImage := mkGlyphImage {
  img_width : Z;   (* u16 *)
  img_height : Z;  (* u16 *)
  img_data : list Z;
  img_format : GlyphImageFormat
}.

(** Size in bytes of an embedded image as its format declares it: byte-padded
    rows for [BitmapMono], a bit stream padded only at its end for
    [BitmapMonoPacked]. *)
Definition declared_size (img : GlyphImage) : option Z :=
  match img_format img with
  | BitmapMono => Some (img_height img * ceil_div8 (img_width img))
  | BitmapMonoPacked => Some ((img_height img * img_width img + 7) / 8)
  | _ => None
  end.

(** [Glyph::from_glyph_image] *)
Definition from_glyph_image (img : GlyphImage) (c : Z) : outcome Glyph GlyphError :=
  match img_format img with
  | BitmapMono =>
      Ok (mkGlyph (img_height img) (img_width img) (img_data img) [c])
  | BitmapMonoPacked =>
      let whitespace_width :=
        Z.to_nat (ceil_div8 (img_width img) * 8 - img_width img) in
      let whitespace := repeat false whitespace_width in
      rows <- chunks_exact (Z.to_nat (img_width img)) (view_bits (img_data img)) ;;
      let d := flat_map (fun row => row ++ whitespace) rows in
      Ok (mkGlyph (img_height img) (img_width img) (into_vec d) [c])
  | fmt => Err (GlyphImgFmtUnsupported fmt)
  end.

(** ** [GlyphImageOwned::convert_format] (file [glyph_image_owned.rs]) on
    the data of an image of width [w]; the other fields are unchanged. *)

(** [u16] arithmetic: [(w as f32 / 8.0).ceil() as u16 * 8] and
    [padded_width - w] wrap modulo 2^16, as the [u32] arithmetic of
    [rasterize] does below (overflow checks off). *)
Definition u16_max : Z := 2 ^ 16.

Definition padded_width_u16 (w : Z) : Z := (ceil_div8 w * 8) mod u16_max.

(** [(BitmapMonoPacked, BitmapMono)] *)
Definition packed_to_mono {E} (w : Z) (bytes : list Z) : outcome (list Z) E :=
  if negb (w mod 8 =? 0) then
    let padded_width := padded_width_u16 w in
    let padding := repeat false (Z.to_nat ((padded_width - w) mod u16_max)) in
    cs <- chunks (Z.to_nat w) (view_bits bytes) ;;
    Ok (into_vec (concat (intersperse padding cs ++ [padding])))
  else Ok bytes.

(** [&x[0..width]]: panics when the chunk is shorter than [width]. *)
Definition slice_prefix {A E} (n : nat) (l : list A) : outcome (list A) E :=
  if Nat.leb n (length l) then Ok (firstn n l) else Panic.

Fixpoint map_outcome {A B E} (f : A -> outcome B E) (l : list A) : outcome (list B) E :=
  match l with
  | [] => Ok []
  | x :: l' => y <- f x ;; ys <- map_outcome f l' ;; Ok (y :: ys)
  end.

(** [(BitmapMono, BitmapMonoPacked)] *)
Definition mono_to_packed {E} (w : Z) (bytes : list Z) : outcome (list Z) E :=
  if negb (w mod 8 =? 0) then
    let padded_width := padded_width_u16 w in
    cs <- chunks (Z.to_nat padded_width) (view_bits bytes) ;;
    rows <- map_outcome (slice_prefix (Z.to_nat w)) cs ;;
    Ok (into_vec (concat rows))
  else Ok bytes.

(** ** Glyph sets ([psf2_writer.rs]) *)

Record Psf2GlyphSet := mkGlyphSet {
  glyphs : list Glyph;
  gs_height : Z;
  gs_width : Z;
  gs_length : Z
}.

(** The loop of [from_vec_of_glyphs_strict] over the glyphs after the first;
    [length as usize] widens the [u32] baseline back to [usize]. *)
Fixpoint strict_check (h w l : Z) (rest : list Glyph) : outcome unit GlyphSetError :=
  match rest with
  | [] => Ok tt
  | g :: rest' =>
      if negb (height g =? h) || negb (width g =? w) then
        Err (InconsistentDimensions (height g) (width g) h w)
      else if negb (Nat.eqb (length (data g)) (Z.to_nat l)) then
        Err (InconsistentLengths (length (data g)) (Z.to_nat l))
      else strict_check h w l rest'
  end.

(** [Psf2GlyphSet::from_vec_of_glyphs_strict] *)
Definition from_vec_of_glyphs_strict (gl : list Glyph) : outcome Psf2GlyphSet GlyphSetError :=
  match gl with
  | [] => Ok (mkGlyphSet gl 0 0 0)
  | f :: rest =>
      let h := height f in
      let w := width f in
      let l := usize_as_u32 (length (data f)) in
      _ <- strict_check h w l rest ;;
      Ok (mkGlyphSet gl h w l)
  end.

(** [u32::try_from(len).unwrap()] *)
Definition u32_try_from_unwrap {E} (n : nat) : outcome Z E :=
  if (Z.of_nat n <? u32_max) then Ok (Z.of_nat n) else Panic.

(** The first loop of [from_vec_of_glyphs_pad]: running maxima. *)
Fixpoint pad_maxima (gl : list Glyph) (mh mw ml : Z) : outcome (Z * Z * Z) GlyphSetError :=
  match gl with
  | [] => Ok (mh, mw, ml)
  | g :: gl' =>
      let mh' := Z.max (height g) mh in
      let mw' := Z.max (width g) mw in
      len <- u32_try_from_unwrap (length (data g)) ;;
      pad_maxima gl' mh' mw' (Z.max len ml)
  end.

(** [Psf2GlyphSet::from_vec_of_glyphs_pad] *)
Definition from_vec_of_glyphs_pad (gl : list Glyph) : outcome Psf2GlyphSet GlyphSetError :=
  m <- pad_maxima gl 0 0 0 ;;
  let '(max_height, max_width, _) := m in
  padded <- map_outcome (fun g => lift_glyph_error (pad g max_height max_width)) gl ;;
  from_vec_of_glyphs_strict padded.

(** [Psf2GlyphSet::write] *)
Definition glyph_set_write (gs : Psf2GlyphSet) : list Z := flat_map data (glyphs gs).

(** ** Rendering ([ttf_parser.rs]); the font backend is abstracted by the
    per-character renderer [render_char] (embedded bitmap, else
    rasterization), which returns a glyph for every [char]. *)

Section Rendering.
Variable render_char : Z -> Glyph.

(** [TtfParser::render_string]: [fold] with [acc.add(g).unwrap()]. *)
Definition render_string (s : Grapheme) : outcome Glyph GlyphError :=
  match map render_char s with
  | [] => Err GlyphEmptyString
  | fg :: rest =>
      fold_left (fun acc g => a <- acc ;; unwrap (add a g)) rest (Ok fg)
  end.

(** [Psf2GlyphSet::new_with_unicode_table]: renders element 0 of each
    equivalence set (an empty set makes the indexing panic). *)
Definition new_with_unicode_table (table : list (list Grapheme)) (pad_mode : bool)
  : outcome Psf2GlyphSet GlyphSetError :=
  gl <- map_outcome (fun set =>
          match set with
          | [] => Panic
          | reference :: _ => lift_glyph_error (render_string reference)
          end) table ;;
  if pad_mode then from_vec_of_glyphs_pad gl else from_vec_of_glyphs_strict gl.

End Rendering.

(** ** Unicode table ([unicode_table.rs]) *)

Definition UnicodeTable := list (list Grapheme).

Inductive UnicodeTableError :=
| InvalidCodepoint (codepoint : Z)
| IntParseError.

(** Modelled from the spec: the parse tree produced by the pest grammar
    [unicode_table_grammar.pest], which is not among the sources. Following
    the grammar of the spec ([grapheme := codepoint (WS codepoint)*]), a
    grapheme is one or more [U+<hex>] tokens, each given by the value of
    its hex digits; an equivalence-set row lists its graphemes. Blank and
    comment lines carry no [equiv_graphemes_set] and are left out. *)
Record ParsedGrapheme := mkParsedGrapheme {
  first_codepoint : Z;
  more_codepoints : list Z
}.

Definition ParsedRow := list ParsedGrapheme.

(** [u32::from_str_radix(hex, 16)] followed by [char::from_u32]. *)
Definition parse_codepoint (v : Z) : outcome Z UnicodeTableError :=
  if v >=? u32_max then Err IntParseError
  else if ((0xD800 <=? v) && (v <=? 0xDFFF)) || (v >? 0x10FFFF) then
    Err (InvalidCodepoint v)
  else Ok v.

Definition parse_grapheme (pg : ParsedGrapheme) : outcome Grapheme UnicodeTableError :=
  map_outcome parse_codepoint (first_codepoint pg :: more_codepoints pg).

(** [sort_by_key]: Rust's slice sort is stable, and a stable sort by a key
    has a single possible result, computed here by insertion. *)
Fixpoint insert_by_key {A} (key : A -> nat) (x : A) (l : list A) : list A :=
  match l with
  | [] => [x]
  | y :: l' => if Nat.leb (key x) (key y) then x :: y :: l' else y :: insert_by_key key x l'
  end.

Fixpoint sort_by_key {A} (key : A -> nat) (l : list A) : list A :=
  match l with
  | [] => []
  | x :: l' => insert_by_key key x (sort_by_key key l')
  end.

(** [str.chars().count()] *)
Definition char_count (g : Grapheme) : nat := length g.

Definition parse_row (row : ParsedRow) : outcome (list Grapheme) UnicodeTableError :=
  set <- map_outcome parse_grapheme row ;;
  Ok (sort_by_key char_count set).

(** [UnicodeTable::from_file] after the file is read and parsed: converts
    every row, sorts each set, then truncates to [glyph_count]. *)
Definition unicode_table_from_parse (rows : list ParsedRow) (glyph_count : option Z)
  : outcome UnicodeTable UnicodeTableError :=
  d <- map_outcome parse_row rows ;;
  match glyph_count with
  | Some gc => Ok (firstn (Z.to_nat gc) d)
  | None => Ok d
  end.

(** [char::encode_utf8] *)
Definition utf8_char (c : Z) : list Z :=
  if c <? 0x80 then [c]
  else if c <? 0x800 then
    [Z.lor 0xC0 (Z.shiftr c 6); Z.lor 0x80 (Z.land c 0x3F)]
  else if c <? 0x10000 then
    [Z.lor 0xE0 (Z.shiftr c 12); Z.lor 0x80 (Z.land (Z.shiftr c 6) 0x3F);
     Z.lor 0x80 (Z.land c 0x3F)]
  else
    [Z.lor 0xF0 (Z.shiftr c 18); Z.lor 0x80 (Z.land (Z.shiftr c 12) 0x3F);
     Z.lor 0x80 (Z.land (Z.shiftr c 6) 0x3F); Z.lor 0x80 (Z.land c 0x3F)].

(** [String::as_bytes] *)
Definition as_bytes (g : Grapheme) : list Z := flat_map utf8_char g.

Definition ss : Z := 0xFE.
Definition term : Z := 0xFF.

(** One grapheme of [UnicodeTable::write]. *)
Definition write_grapheme (g : Grapheme) : list Z :=
  if Nat.eqb (char_count g) 1 then as_bytes g else ss :: as_bytes g.

(** [UnicodeTable::write] *)
Definition unicode_table_write (t : UnicodeTable) : list Z :=
  flat_map (fun set => flat_map write_grapheme set ++ [term]) t.

(** ** PSF2 header and font ([psf2_writer.rs]) *)

Definition PSF2_MAGIC_BYTES : list Z := [0x72; 0xb5; 0x4a; 0x86].
Definition PSF2_VERSION : list Z := [0; 0; 0; 0].

(** [u32::to_le_bytes] *)
Definition to_le_bytes (x : Z) : list Z :=
  [Z.land x 255; Z.land (Z.shiftr x 8) 255;
   Z.land (Z.shiftr x 16) 255; Z.land (Z.shiftr x 24) 255].

Definition PSF2_HEADER_SIZE : list Z := to_le_bytes 32.

Record Psf2Header := mkHeader {
  unicode_table_exists : bool;
  glyph_count : Z;
  glyph_size : Z;
  glyph_height : Z;
  glyph_width : Z
}.

(** [Psf2Header::write]: the 32-byte array filled slice by slice. *)
Definition header_write (h : Psf2Header) : list Z :=
  let flags := to_le_bytes (Z.b2z (unicode_table_exists h)) in
  PSF2_MAGIC_BYTES ++ PSF2_VERSION ++ PSF2_HEADER_SIZE ++ flags
  ++ to_le_bytes (glyph_count h) ++ to_le_bytes (glyph_size h)
  ++ to_le_bytes (glyph_height h) ++ to_le_bytes (glyph_width h).

Record Psf2Font := mkFont {
  header : Psf2Header;
  font_glyphs : Psf2GlyphSet;
  unicode_table : option UnicodeTable
}.

(** [Psf2Font::write] *)
Definition font_write (f : Psf2Font) : list Z :=
  header_write (header f) ++ glyph_set_write (font_glyphs f)
  ++ match unicode_table f with Some uc => unicode_table_write uc | None => [] end.

(** The table step of [convert] in [main.rs]: a table is loaded iff a table
    file is given. *)
Definition load_table (unicode_table_file : option (list ParsedRow))
  (cli_glyph_count : option Z) : outcome (option UnicodeTable) UnicodeTableError :=
  match unicode_table_file with
  | Some rows => t <- unicode_table_from_parse rows cli_glyph_count ;; Ok (Some t)
  | None => Ok None
  end.

(** The rest of [convert]: header and font built from the loaded table and
    the assembled glyph set. *)
Definition convert_font (unicode_table_file : option (list ParsedRow))
  (cli_glyph_count : option Z) (table : option UnicodeTable) (glyphs : Psf2GlyphSet)
  : Psf2Font :=
  let count := match table with
               | Some t => usize_as_u32 (length t)
               | None => match cli_glyph_count with Some n => n | None => 256 end
               end in
  mkFont (mkHeader (match unicode_table_file with Some _ => true | None => false end)
                   count (gs_length glyphs) (gs_height glyphs) (gs_width glyphs))
         glyphs table.

(** * Properties *)

(** ** Helper lemmas *)

Lemma nth_map_lor_combine (a b : list Z) (i : nat) :
  length a = length b ->
  nth i (map (fun '(x, y) => Z.lor x y) (combine a b)) 0
  = Z.lor (nth i a 0) (nth i b 0).
Proof.
  revert b i; induction a as [|x a IH]; intros [|y b] i Hlen; simpl in *;
    try discriminate.
  - destruct i; reflexivity.
  - destruct i; [reflexivity|]. apply IH. lia.
Qed.

Lemma length_map_combine_eq {A B C} (f : A * B -> C) (a : list A) (b : list B) :
  length a = length b -> length (map f (combine a b)) = length a.
Proof.
  intro H. rewrite length_map, length_combine, H. apply Nat.min_id.
Qed.

(** ** C2: [add] *)

(** C2. [add a b] fails with [WrongDimensions] carrying the heights and
    widths of both operands iff the heights or widths differ; with equal
    dimensions it fails with [WrongLength] carrying both data lengths iff
    the lengths differ; otherwise it returns the byte-wise OR of the data,
    the operands' height and width, and the grapheme of [a] followed by the
    grapheme of [b]. *)
Theorem add_spec (a b : Glyph) :
  (add a b = Err (WrongDimensions (height a) (width a) (height b) (width b))
   <-> (height a <> height b \/ width a <> width b))
  /\ (height a = height b -> width a = width b ->
      (add a b = Err (WrongLength (length (data a)) (length (data b)))
       <-> length (data a) <> length (data b)))
  /\ (height a = height b -> width a = width b ->
      length (data a) = length (data b) ->
      exists r, add a b = Ok r
        /\ height r = height a /\ width r = width a
        /\ height r = height b /\ width r = width b
        /\ length (data r) = length (data a)
        /\ (forall i, nth i (data r) 0 = Z.lor (nth i (data a) 0) (nth i (data b) 0))
        /\ grapheme r = grapheme a ++ grapheme b).
Proof.
  unfold add.
  destruct (Z.eqb_spec (height a) (height b)) as [Hh|Hh];
  destruct (Z.eqb_spec (width a) (width b)) as [Hw|Hw]; simpl;
  destruct (Nat.eqb_spec (length (data a)) (length (data b))) as [Hl|Hl]; simpl;
  repeat split; intros; try congruence; try tauto; try discriminate.
  eexists; repeat split; try (simpl; congruence).
  - simpl. apply length_map_combine_eq; assumption.
  - intro i. simpl. apply nth_map_lor_combine; assumption.
Qed.

(** ** C10: padding to the current size *)

(** C10. Padding a glyph to its own height and width succeeds and returns
    the glyph unchanged (height, width, data and grapheme); this holds for
    every glyph, in particular for every glyph satisfying the layout
    invariant. *)
Theorem pad_same_size (g : Glyph) :
  pad g (height g) (width g) = Ok g.
Proof.
  destruct g as [h w d gr]. unfold pad; simpl.
  rewrite Z.gtb_ltb, Z.ltb_irrefl, Z.gtb_ltb, Z.ltb_irrefl. simpl.
  rewrite Nat.ltb_irrefl. simpl.
  rewrite Z.sub_diag. simpl. rewrite app_nil_r. reflexivity.
Qed.

(** ** Concrete glyphs used below *)

(** A zero-advance glyph, as rasterization produces it for a combining mark
    such as U+0301 in a 16 px font: width [ceil(0) = 0], no data bytes. *)
Definition zero_width_glyph : Glyph := mkGlyph 16 0 [] [0x301].

(** An 8 px wide, 16 px high blank glyph for the letter B. *)
Definition glyph_B : Glyph := mkGlyph 16 8 (repeat 0 16) [0x42].

(** A font whose glyph for U+0301 has zero advance. *)
Definition render_char_zero_width_mark (c : Z) : Glyph :=
  if c =? 0x301 then zero_width_glyph else mkGlyph 16 8 (repeat 0 16) [c].

(** ** [pad] away from zero widths *)

Lemma chunks_exact_aux_padded_length (n d k fuel : nat) (l : list Z) :
  (0 < n)%nat -> length l = (k * n)%nat -> (k <= fuel)%nat ->
  length (flat_map (fun c => c ++ repeat 0 d) (chunks_exact_aux fuel n l))
  = (k * (n + d))%nat.
Proof.
  intros Hn. revert fuel l. induction k as [|k IH]; intros fuel l Hl Hk.
  - destruct fuel as [|fuel]; simpl; [reflexivity|].
    destruct l; simpl in *; [|lia].
    destruct (Nat.ltb_spec 0 n); [reflexivity|lia].
  - destruct fuel as [|fuel]; [lia|]. simpl.
    destruct (Nat.ltb_spec (length l) n); [lia|].
    cbn [flat_map]. rewrite length_app, length_app, repeat_length, length_firstn.
    rewrite (IH fuel (skipn n l)); [lia| |lia].
    rewrite length_skipn. lia.
Qed.

(** With a positive width, [pad] to a canvas at least as large succeeds
    and keeps the layout invariant. *)
Lemma pad_positive_width_inv (g : Glyph) (nh nw : Z) :
  glyph_inv g -> 0 <= height g -> 0 < width g ->
  height g <= nh -> width g <= nw ->
  exists r, pad g nh nw = Ok r /\ glyph_inv r
    /\ height r = nh /\ width r = nw /\ grapheme r = grapheme g.
Proof.
  destruct g as [h w d gr]. unfold glyph_inv, pad, ceil_div8; cbn [height width data grapheme].
  intros Hinv Hh Hw Hnh Hnw.
  assert (Hs : 1 <= (w + 7) / 8) by (apply Z.div_le_lower_bound; lia).
  assert (Hp : (w + 7) / 8 <= (nw + 7) / 8) by (apply Z.div_le_mono; lia).
  rewrite (Z.gtb_ltb h nh), (Z.gtb_ltb w nw).
  replace (nh <? h) with false by (symmetry; apply Z.ltb_ge; lia).
  replace (nw <? w) with false by (symmetry; apply Z.ltb_ge; lia).
  cbn [orb].
  set (sr := (w + 7) / 8) in *. set (pr := (nw + 7) / 8) in *.
  assert (Hlen : length d = (Z.to_nat h * Z.to_nat sr)%nat).
  { apply Nat2Z.inj. rewrite Hinv, Nat2Z.inj_mul, !Z2Nat.id by lia. reflexivity. }
  assert (Hfin : forall k, (k = Z.to_nat h * Z.to_nat pr)%nat ->
            Z.of_nat (k + Z.to_nat (nh - h) * Z.to_nat pr) = nh * pr).
  { intros k ->. rewrite Nat2Z.inj_add, !Nat2Z.inj_mul, !Z2Nat.id by lia. ring. }
  destruct (Nat.ltb_spec (Z.to_nat sr) (Z.to_nat pr)).
  - unfold chunks_exact.
    destruct (Nat.eqb_spec (Z.to_nat sr) 0) as [E|_]; [lia|].
    cbn [bind]. eexists; repeat split; cbn [data height width].
    rewrite length_app, repeat_length.
    rewrite (chunks_exact_aux_padded_length _ _ (Z.to_nat h)); [|lia|exact Hlen|nia].
    apply Hfin. f_equal. lia.
  - cbn [bind]. eexists; repeat split; cbn [data height width].
    rewrite length_app, repeat_length. apply Hfin. rewrite Hlen. f_equal. lia.
Qed.

(** ** C3: [pad] on a zero-width glyph *)

(** C3. Evaluation of [pad] at a zero-width glyph that satisfies the layout
    invariant, padded to a larger canvas: [chunks_exact(0)] panics, so
    [pad] does not succeed. *)
Theorem pad_zero_width_panics :
  glyph_inv zero_width_glyph
  /\ height zero_width_glyph <= 16 /\ width zero_width_glyph <= 8
  /\ pad zero_width_glyph 16 8 = Panic.
Proof. vm_compute. repeat split; discriminate. Qed.

(** ** C4: the packed embedded-bitmap conversion *)

(** C4. Evaluation of [from_glyph_image] at a 3 x 1 [BitmapMonoPacked]
    image whose data has the declared size (one byte for three bits): the
    trailing five bits are chunked into a second row, so the glyph has two
    bytes for one row of one byte and violates the layout invariant. *)
Theorem from_glyph_image_packed_extra_row :
  let img := mkGlyphImage 3 1 [0xA0] BitmapMonoPacked in
  declared_size img = Some (Z.of_nat (length (img_data img)))
  /\ from_glyph_image img 0x41 = Ok (mkGlyph 1 3 [0xA0; 0] [0x41])
  /\ ~ glyph_inv (mkGlyph 1 3 [0xA0; 0] [0x41]).
Proof.
  vm_compute. split; [reflexivity|]. split; [reflexivity|]. discriminate.
Qed.

(** ** C5: round trips through [convert_format] *)

(** C5. Evaluation of the two [convert_format] directions at width 3 and
    height 1: byte-aligned [A0] packs to [A0], which unpacks to three bytes
    [A0 00 00]; packed [A0] unpacks to [A0 00 00], which packs to
    [A0 00]. Neither round trip gives back [A0]. *)
Theorem convert_format_round_trips_differ :
  (x <- @mono_to_packed unit 3 [0xA0] ;; @packed_to_mono unit 3 x) = Ok [0xA0; 0; 0]
  /\ (x <- @packed_to_mono unit 3 [0xA0] ;; @mono_to_packed unit 3 x) = Ok [0xA0; 0].
Proof. vm_compute. split; reflexivity. Qed.

(** ** C7: pad-mode assembly *)

(** C7. Evaluation of pad-mode assembly at two glyphs that satisfy the
    layout invariant, a zero-width mark and an 8 px wide letter: padding the
    zero-width glyph to width 8 panics in [chunks_exact(0)]. *)
Theorem pad_mode_zero_width_panics :
  glyph_inv zero_width_glyph /\ glyph_inv glyph_B
  /\ from_vec_of_glyphs_pad [zero_width_glyph; glyph_B] = Panic.
Proof. vm_compute. repeat split; discriminate. Qed.

(** ** C9: panics on error paths *)

(** C9. Evaluation of rendering and of glyph-set assembly: the grapheme
    B + U+0301 in a font where U+0301 has zero advance makes [add] return
    [WrongDimensions], which [unwrap] turns into a panic; and the [From]
    conversion of any [GlyphError] other than [EmptyString] panics. *)
Theorem rendering_panics :
  add glyph_B zero_width_glyph = Err (WrongDimensions 16 8 16 0)
  /\ render_string render_char_zero_width_mark [0x42; 0x301] = Panic
  /\ new_with_unicode_table render_char_zero_width_mark [[[0x42; 0x301]]] false = Panic
  /\ glyph_set_error_from (PadTooSmall 16 8 12 8) = Panic
  /\ glyph_set_error_from (WrongLength 16 0) = Panic.
Proof. vm_compute. repeat split. Qed.

(** ** C6: strict assembly against the first glyph as baseline *)

(** Whether glyph [g] has the height, width and data length of [f]. *)
Definition matches_baseline (f g : Glyph) : bool :=
  (height g =? height f) && (width g =? width f)
  && Nat.eqb (length (data g)) (length (data f)).

(** The error naming [g]'s values and the baseline [f]'s. *)
Definition baseline_error (f g : Glyph) : GlyphSetError :=
  if (height g =? height f) && (width g =? width f)
  then InconsistentLengths (length (data g)) (length (data f))
  else InconsistentDimensions (height g) (width g) (height f) (width f).

Lemma strict_check_first_mismatch (f : Glyph) (rest : list Glyph) :
  Z.of_nat (length (data f)) < u32_max ->
  strict_check (height f) (width f) (usize_as_u32 (length (data f))) rest
  = match find (fun g => negb (matches_baseline f g)) rest with
    | None => Ok tt
    | Some g => Err (baseline_error f g)
    end.
Proof.
  intro Hf.
  assert (Hl : Z.to_nat (usize_as_u32 (length (data f))) = length (data f)).
  { unfold usize_as_u32. rewrite Z.mod_small by lia. apply Nat2Z.id. }
  induction rest as [|g rest IH]; [reflexivity|].
  cbn [strict_check find]. rewrite Hl, IH.
  unfold matches_baseline, baseline_error.
  destruct (height g =? height f) eqn:E1, (width g =? width f) eqn:E2,
    (Nat.eqb (length (data g)) (length (data f))) eqn:E3;
    cbn; rewrite ?E1, ?E2; reflexivity.
Qed.

(** C6. Strict assembly takes the first glyph's height, width and data
    length as baseline: it fails iff some later glyph differs from it,
    with [InconsistentDimensions] or [InconsistentLengths] naming the
    first differing glyph's values and the baseline's; otherwise it
    succeeds with the baseline figures. An empty list gives a set with
    height, width and length zero. The baseline length goes through
    [as u32]; the hypothesis bounds it below 2^32 bytes, which every glyph
    the program builds satisfies ([rasterize] allocates at most 2^32 bits,
    embedded images have [u16] dimensions). *)
Theorem strict_baseline (f : Glyph) (rest : list Glyph) :
  Z.of_nat (length (data f)) < u32_max ->
  from_vec_of_glyphs_strict [] = Ok (mkGlyphSet [] 0 0 0)
  /\ from_vec_of_glyphs_strict (f :: rest)
     = match find (fun g => negb (matches_baseline f g)) rest with
       | None => Ok (mkGlyphSet (f :: rest) (height f) (width f) (Z.of_nat (length (data f))))
       | Some g => Err (baseline_error f g)
       end.
Proof.
  intro Hf. split; [reflexivity|].
  unfold from_vec_of_glyphs_strict. rewrite strict_check_first_mismatch by exact Hf.
  destruct (find _ rest); cbn [bind]; [reflexivity|].
  unfold usize_as_u32. rewrite Z.mod_small by lia. reflexivity.
Qed.

Lemma strict_baseline_witness :
  from_vec_of_glyphs_strict [glyph_B; glyph_B; mkGlyph 10 5 (repeat 0 10) [0x69]]
  = Err (InconsistentDimensions 10 5 16 8)
  /\ from_vec_of_glyphs_strict [glyph_B; mkGlyph 16 8 (repeat 0 15) [0x43]]
     = Err (InconsistentLengths 15 16).
Proof.
  split.
  - rewrite (proj2 (strict_baseline glyph_B [glyph_B; mkGlyph 10 5 (repeat 0 10) [0x69]]
                      ltac:(unfold u32_max; cbn; lia))).
    vm_compute. reflexivity.
  - rewrite (proj2 (strict_baseline glyph_B [mkGlyph 16 8 (repeat 0 15) [0x43]]
                      ltac:(unfold u32_max; cbn; lia))).
    vm_compute. reflexivity.
Defined.

(** ** Sorting by key *)

Section SortByKey.
Context {A : Type} (key : A -> nat).

Lemma insert_by_key_split (x : A) (l : list A) :
  exists l1 l2, l = l1 ++ l2 /\ insert_by_key key x l = l1 ++ x :: l2
                /\ Forall (fun y => (key y < key x)%nat) l1.
Proof.
  induction l as [|y l IH]; simpl.
  - exists [], []. auto.
  - destruct (Nat.leb_spec (key x) (key y)).
    + exists [], (y :: l). auto.
    + destruct IH as (l1 & l2 & -> & -> & Hl1).
      exists (y :: l1), l2. repeat split; auto.
Qed.

Lemma in_insert_by_key (x z : A) (l : list A) :
  In z (insert_by_key key x l) -> z = x \/ In z l.
Proof.
  destruct (insert_by_key_split x l) as (l1 & l2 & -> & -> & _).
  rewrite !in_app_iff. simpl. intros [H|[H|H]]; auto.
Qed.

Definition key_le (a b : A) : Prop := (key a <= key b)%nat.

Lemma insert_by_key_sorted (x : A) (l : list A) :
  StronglySorted key_le l -> StronglySorted key_le (insert_by_key key x l).
Proof.
  induction l as [|y l IH]; simpl; intro Hs.
  - repeat constructor.
  - inversion Hs as [|? ? Hs' Hall]; subst.
    destruct (Nat.leb_spec (key x) (key y)).
    + constructor; [exact Hs|].
      constructor; [unfold key_le; lia|].
      eapply Forall_impl; [|exact Hall]. unfold key_le; intros; lia.
    + constructor; [auto|].
      apply Forall_forall. intros z Hz.
      destruct (in_insert_by_key x z l Hz) as [->|Hin]; unfold key_le; [lia|].
      rewrite Forall_forall in Hall. apply Hall, Hin.
Qed.

Lemma sort_by_key_sorted (l : list A) : StronglySorted key_le (sort_by_key key l).
Proof.
  induction l; simpl; [constructor|]. apply insert_by_key_sorted; assumption.
Qed.

Lemma sort_by_key_stable (l : list A) (k : nat) :
  filter (fun g => Nat.eqb (key g) k) (sort_by_key key l)
  = filter (fun g => Nat.eqb (key g) k) l.
Proof.
  induction l as [|x l IH]; simpl; [reflexivity|].
  destruct (insert_by_key_split x (sort_by_key key l)) as (l1 & l2 & Hl & -> & Hl1).
  rewrite <- IH, Hl, !filter_app. simpl.
  destruct (Nat.eqb_spec (key x) k) as [<-|Hk].
  - replace (filter (fun g => Nat.eqb (key g) (key x)) l1) with (@nil A); [reflexivity|].
    symmetry. clear Hl. induction Hl1 as [|z l1 Hz _ IH1]; simpl; [reflexivity|].
    destruct (Nat.eqb_spec (key z) (key x)); [lia|exact IH1].
  - reflexivity.
Qed.

Lemma in_sort_by_key (z : A) (l : list A) : In z (sort_by_key key l) -> In z l.
Proof.
  induction l as [|x l IH]; simpl; [tauto|].
  intro H. destruct (in_insert_by_key x z _ H) as [->|Hin]; auto.
Qed.

(** A list sorted by key, whose keys are all positive, is its key-1
    elements followed by elements of key at least 2. *)
Lemma sorted_split_singles (s : list A) :
  StronglySorted key_le s -> Forall (fun g => (1 <= key g)%nat) s ->
  exists l1 l2, s = l1 ++ l2 /\ Forall (fun g => key g = 1%nat) l1
                /\ Forall (fun g => (2 <= key g)%nat) l2.
Proof.
  induction s as [|x s IH]; intros Hs Hpos.
  - exists [], []. auto.
  - inversion Hs as [|? ? Hs' Hall]; subst. inversion Hpos; subst.
    destruct (Nat.eq_dec (key x) 1) as [E|E].
    + destruct (IH Hs' ltac:(assumption)) as (l1 & l2 & -> & Hl1 & Hl2).
      exists (x :: l1), l2. auto.
    + exists [], (x :: s). repeat split; auto. constructor; [lia|].
      eapply Forall_impl; [|exact Hall]. unfold key_le; intros; lia.
Qed.

End SortByKey.

(** ** Unicode table conversion *)

Lemma map_outcome_ok {A B E} (f : A -> outcome B E) (l : list A) (l' : list B) :
  map_outcome f l = Ok l' -> Forall2 (fun x y => f x = Ok y) l l'.
Proof.
  revert l'; induction l as [|x l IH]; simpl; intros l' H.
  - inversion H; constructor.
  - unfold bind at 1 in H. destruct (f x) eqn:Ef; try discriminate.
    unfold bind in H. destruct (map_outcome f l) eqn:El; try discriminate.
    inversion H; subst. constructor; auto.
Qed.

Lemma forall2_nth_error_r {A B} (R : A -> B -> Prop) (l : list A) (l' : list B)
  (i : nat) (y : B) :
  Forall2 R l l' -> nth_error l' i = Some y -> exists x, nth_error l i = Some x /\ R x y.
Proof.
  intro H. revert i. induction H as [|x y' l l' Hxy _ IH]; intros [|i]; simpl;
    try discriminate; eauto.
  intro E. inversion E; subst. eauto.
Qed.

Lemma parse_grapheme_nonempty (pg : ParsedGrapheme) (g : Grapheme) :
  parse_grapheme pg = Ok g -> (1 <= char_count g)%nat.
Proof.
  unfold parse_grapheme. intro H. apply map_outcome_ok in H.
  inversion H; subst. unfold char_count. simpl. lia.
Qed.

Lemma nth_error_firstn_some {A} (n i : nat) (l : list A) (x : A) :
  nth_error (firstn n l) i = Some x -> nth_error l i = Some x.
Proof.
  revert n i; induction l as [|y l IH]; intros [|n] [|i]; simpl; try discriminate; eauto.
Qed.

(** Every set of a loaded table is the sorted conversion of the row at the
    same position. *)
Lemma table_set_origin (rows : list ParsedRow) (gc : option Z) (t : UnicodeTable)
  (i : nat) (set : list Grapheme) :
  unicode_table_from_parse rows gc = Ok t -> nth_error t i = Some set ->
  exists row gs, nth_error rows i = Some row
    /\ map_outcome parse_grapheme row = Ok gs
    /\ set = sort_by_key char_count gs.
Proof.
  unfold unicode_table_from_parse, bind. intros Ht Hi.
  destruct (map_outcome parse_row rows) as [d| |] eqn:Ed; try discriminate.
  assert (Hd : nth_error d i = Some set).
  { destruct gc; inversion Ht; subst; [eapply nth_error_firstn_some; eassumption|assumption]. }
  apply map_outcome_ok in Ed.
  destruct (forall2_nth_error_r _ _ _ _ _ Ed Hd) as (row & Hrow & Hp).
  unfold parse_row, bind in Hp.
  destruct (map_outcome parse_grapheme row) as [gs| |] eqn:Eg; try discriminate.
  inversion Hp; subst. exists row, gs. auto.
Qed.

Lemma table_set_props (rows : list ParsedRow) (gc : option Z) (t : UnicodeTable)
  (set : list Grapheme) :
  unicode_table_from_parse rows gc = Ok t -> In set t ->
  exists l1 l2, set = l1 ++ l2 /\ Forall (fun g => char_count g = 1%nat) l1
                /\ Forall (fun g => (2 <= char_count g)%nat) l2.
Proof.
  intros Ht Hin. destruct (In_nth_error _ _ Hin) as (i & Hi).
  destruct (table_set_origin rows gc t i set Ht Hi) as (row & gs & _ & Hgs & ->).
  apply sorted_split_singles; [apply sort_by_key_sorted|].
  apply Forall_forall. intros g Hg. apply in_sort_by_key in Hg.
  apply map_outcome_ok in Hgs.
  destruct (In_nth_error _ _ Hg) as (j & Hj).
  destruct (forall2_nth_error_r _ _ _ _ _ Hgs Hj) as (pg & _ & Hpg).
  eapply parse_grapheme_nonempty; eassumption.
Qed.

(** ** C8: order of the graphemes of a loaded table *)

(** C8. For every successfully loaded table, each equivalence set is the
    set of graphemes of its input row (the row at the same position) sorted
    ascending by codepoint count, stably: the set is sorted, and for every
    count its graphemes of that count appear in input order. It is a run of
    single-codepoint graphemes followed by a run of multi-codepoint ones,
    and element 0 is a single-codepoint grapheme whenever the set has one. *)
Theorem unicode_table_sets_sorted (rows : list ParsedRow) (gc : option Z)
  (t : UnicodeTable) (i : nat) (set : list Grapheme) :
  unicode_table_from_parse rows gc = Ok t ->
  nth_error t i = Some set ->
  exists row gs,
    nth_error rows i = Some row
    /\ map_outcome parse_grapheme row = Ok gs
    /\ StronglySorted (fun a b => (char_count a <= char_count b)%nat) set
    /\ (forall k, filter (fun g => Nat.eqb (char_count g) k) set
                  = filter (fun g => Nat.eqb (char_count g) k) gs)
    /\ (exists singles multis, set = singles ++ multis
          /\ Forall (fun g => char_count g = 1%nat) singles
          /\ Forall (fun g => (2 <= char_count g)%nat) multis)
    /\ ((exists g, In g set /\ char_count g = 1%nat) ->
        exists g0 rest, set = g0 :: rest /\ char_count g0 = 1%nat).
Proof.
  intros Ht Hi.
  destruct (table_set_origin rows gc t i set Ht Hi) as (row & gs & Hrow & Hgs & Hset).
  assert (Hsplit := table_set_props rows gc t set Ht (nth_error_In _ _ Hi)).
  exists row, gs. repeat split; auto.
  - subst set. apply (sort_by_key_sorted char_count).
  - intro k. subst set. apply sort_by_key_stable.
  - intros (g & Hg & H1). destruct Hsplit as (l1 & l2 & -> & Hl1 & Hl2).
    destruct l1 as [|g0 l1].
    + simpl in Hg. rewrite Forall_forall in Hl2. specialize (Hl2 g Hg). lia.
    + exists g0, (l1 ++ l2). split; [reflexivity|]. inversion Hl1; assumption.
Qed.

(** The input row [U+0042 U+0301, U+0041] (a combining sequence first). *)
Definition row_B_acute_A : ParsedRow :=
  [mkParsedGrapheme 0x42 [0x301]; mkParsedGrapheme 0x41 []].

Lemma unicode_table_sets_sorted_witness :
  unicode_table_from_parse [row_B_acute_A] None = Ok [[[0x41]; [0x42; 0x301]]]
  /\ nth_error [[[0x41]; [0x42; 0x301]]] 0 = Some [[0x41]; [0x42; 0x301]]
  /\ exists row gs,
    nth_error [row_B_acute_A] 0 = Some row
    /\ map_outcome parse_grapheme row = Ok gs
    /\ StronglySorted (fun a b => (char_count a <= char_count b)%nat) [[0x41]; [0x42; 0x301]]
    /\ (forall k, filter (fun g => Nat.eqb (char_count g) k) [[0x41]; [0x42; 0x301]]
                  = filter (fun g => Nat.eqb (char_count g) k) gs)
    /\ (exists singles multis, [[0x41]; [0x42; 0x301]] = singles ++ multis
          /\ Forall (fun g => char_count g = 1%nat) singles
          /\ Forall (fun g => (2 <= char_count g)%nat) multis)
    /\ ((exists g, In g [[0x41]; [0x42; 0x301]] /\ char_count g = 1%nat) ->
        exists g0 rest, [[0x41]; [0x42; 0x301]] = g0 :: rest /\ char_count g0 = 1%nat).
Proof.
  split; [vm_compute; reflexivity|]. split; [reflexivity|].
  apply (unicode_table_sets_sorted [row_B_acute_A] None [[[0x41]; [0x42; 0x301]]] 0);
    vm_compute; reflexivity.
Defined.

(** ** C1: the serialized container *)

(** The container layout as the format description states it, to be
    compared with [font_write]: a little-endian [u32] is its four base-256
    digits, least significant first. *)
Definition spec_le32 (x : Z) : list Z :=
  [x mod 256; (x / 256) mod 256; (x / 65536) mod 256; (x / 16777216) mod 256].

Definition is_single (g : Grapheme) : bool := Nat.eqb (length g) 1.

(** One trailer entry: single-codepoint graphemes as UTF-8, then each
    multi-codepoint grapheme after [0xFE], then [0xFF]. *)
Definition spec_trailer_entry (set : list Grapheme) : list Z :=
  flat_map as_bytes (filter is_single set)
  ++ flat_map (fun g => 0xFE :: as_bytes g) (filter (fun g => negb (is_single g)) set)
  ++ [0xFF].

Definition spec_container (trailer : option UnicodeTable) (count size h w : Z)
  (bitmaps : list (list Z)) : list Z :=
  [0x72; 0xB5; 0x4A; 0x86] ++ spec_le32 0 ++ spec_le32 32
  ++ spec_le32 (match trailer with Some _ => 1 | None => 0 end)
  ++ spec_le32 count ++ spec_le32 size ++ spec_le32 h ++ spec_le32 w
  ++ concat bitmaps
  ++ match trailer with Some t => flat_map spec_trailer_entry t | None => [] end.

Lemma to_le_bytes_digits (x : Z) : to_le_bytes x = spec_le32 x.
Proof.
  unfold to_le_bytes, spec_le32.
  rewrite !Z.shiftr_div_pow2 by lia.
  change 255 with (Z.ones 8). rewrite !Z.land_ones by lia.
  reflexivity.
Qed.

Lemma flat_map_ext_in {A B} (f g : A -> list B) (l : list A) :
  (forall x, In x l -> f x = g x) -> flat_map f l = flat_map g l.
Proof.
  induction l as [|x l IH]; simpl; intros H; [reflexivity|].
  rewrite H by auto. rewrite IH by auto. reflexivity.
Qed.

Lemma write_split_set (l1 l2 : list Grapheme) :
  Forall (fun g => char_count g = 1%nat) l1 ->
  Forall (fun g => (2 <= char_count g)%nat) l2 ->
  flat_map write_grapheme (l1 ++ l2) ++ [term] = spec_trailer_entry (l1 ++ l2).
Proof.
  intros H1 H2. unfold spec_trailer_entry.
  rewrite flat_map_app, !filter_app, <- app_assoc.
  assert (E1 : flat_map write_grapheme l1 = flat_map as_bytes l1
               /\ filter is_single l1 = l1
               /\ filter (fun g => negb (is_single g)) l1 = []).
  { induction H1 as [|g l1 Hg _ IH]; [repeat split|].
    unfold write_grapheme, is_single, char_count in *. simpl.
    rewrite Hg. simpl. destruct IH as (-> & -> & ->). repeat split. }
  assert (E2 : flat_map write_grapheme l2 = flat_map (fun g => 0xFE :: as_bytes g) l2
               /\ filter is_single l2 = []
               /\ filter (fun g => negb (is_single g)) l2 = l2).
  { induction H2 as [|g l2 Hg _ IH]; [repeat split|].
    unfold write_grapheme, is_single, char_count in *. simpl.
    destruct (Nat.eqb_spec (length g) 1); [lia|]. simpl.
    destruct IH as (-> & -> & ->). repeat split. }
  destruct E1 as (-> & -> & ->). destruct E2 as (-> & -> & ->).
  rewrite !app_nil_r. reflexivity.
Qed.

(** C1. For every run of [convert] whose table step succeeds, the written
    font is the 32-byte header (magic [72 B5 4A 86], version 0, header size
    32, flags 1 iff a table is present and 0 otherwise, glyph count, glyph
    size, glyph height, glyph width, each a little-endian [u32]), then the
    glyph bitmaps in glyph-set order, then, iff a table is present, for each
    equivalence set its single-codepoint graphemes as UTF-8, its
    multi-codepoint graphemes each after [0xFE], and [0xFF]. *)
Theorem font_write_layout (unicode_table_file : option (list ParsedRow))
  (cli_glyph_count : option Z) (table : option UnicodeTable) (gs : Psf2GlyphSet) :
  load_table unicode_table_file cli_glyph_count = Ok table ->
  let f := convert_font unicode_table_file cli_glyph_count table gs in
  length (header_write (header f)) = 32%nat
  /\ font_write f
     = spec_container table (glyph_count (header f)) (gs_length gs) (gs_height gs)
         (gs_width gs) (map data (glyphs gs)).
Proof.
  intros Hload f. split; [reflexivity|].
  unfold f, font_write, convert_font, header_write, spec_container,
    glyph_set_write, PSF2_HEADER_SIZE, PSF2_MAGIC_BYTES, PSF2_VERSION.
  cbn [header unicode_table font_glyphs unicode_table_exists glyph_count
       glyph_size glyph_height glyph_width].
  rewrite !to_le_bytes_digits, flat_map_concat_map.
  destruct unicode_table_file as [rows|]; cbn [load_table] in Hload.
  - unfold bind in Hload.
    destruct (unicode_table_from_parse rows cli_glyph_count) as [t| |] eqn:Et;
      try discriminate.
    inversion Hload; subst table. cbn [Z.b2z].
    repeat rewrite <- app_assoc. do 9 f_equal.
    unfold unicode_table_write. apply flat_map_ext_in. intros set Hset.
    destruct (table_set_props rows cli_glyph_count t set Et Hset)
      as (l1 & l2 & -> & Hl1 & Hl2).
    apply write_split_set; assumption.
  - inversion Hload; subst table. cbn [Z.b2z]. reflexivity.
Qed.

Definition one_glyph_set : Psf2GlyphSet := mkGlyphSet [glyph_B] 16 8 16.

Lemma font_write_layout_witness :
  load_table (Some [row_B_acute_A]) None = Ok (Some [[[0x41]; [0x42; 0x301]]])
  /\ let f := convert_font (Some [row_B_acute_A]) None
                 (Some [[[0x41]; [0x42; 0x301]]]) one_glyph_set in
     length (header_write (header f)) = 32%nat
     /\ font_write f
        = spec_container (Some [[[0x41]; [0x42; 0x301]]]) (glyph_count (header f))
            (gs_length one_glyph_set) (gs_height one_glyph_set)
            (gs_width one_glyph_set) (map data (glyphs one_glyph_set)).
Proof.
  split; [vm_compute; reflexivity|].
  apply (font_write_layout (Some [row_B_acute_A]) None
           (Some [[[0x41]; [0x42; 0x301]]]) one_glyph_set).
  vm_compute. reflexivity.
Defined.

(** * Further properties of the code *)

(** ** [Glyph::add] *)

Definition or_bytes (a b : list Z) : list Z :=
  map (fun '(x, y) => Z.lor x y) (combine a b).

Lemma add_ok_iff (a b r : Glyph) :
  add a b = Ok r <->
  height a = height b /\ width a = width b /\ length (data a) = length (data b)
  /\ r = mkGlyph (height a) (width a) (or_bytes (data a) (data b))
                 (grapheme a ++ grapheme b).
Proof.
  unfold add, or_bytes.
  destruct (Z.eqb_spec (height a) (height b)); destruct (Z.eqb_spec (width a) (width b));
    simpl; try (split; [discriminate|intros (? & ? & _); contradiction]).
  destruct (Nat.eqb_spec (length (data a)) (length (data b))); simpl.
  - split; [intro H; inversion H; auto|intros (_ & _ & _ & ->); reflexivity].
  - split; [discriminate|intros (_ & _ & ? & _); contradiction].
Qed.


Lemma or_bytes_length (a b : list Z) :
  length a = length b -> length (or_bytes a b) = length a.
Proof. apply length_map_combine_eq. Qed.

Lemma or_bytes_assoc (a b c : list Z) :
  length a = length b -> length b = length c ->
  or_bytes (or_bytes a b) c = or_bytes a (or_bytes b c).
Proof.
  unfold or_bytes. revert b c; induction a as [|x a IH]; intros [|y b] [|z c] H1 H2;
    simpl in *; try discriminate; auto.
  rewrite Z.lor_assoc, IH by lia. reflexivity.
Qed.



(** A successful [add] keeps the byte-aligned layout invariant of its first
    operand, and the height and width of both operands. *)
Theorem add_preserves_inv (a b r : Glyph) :
  glyph_inv a -> add a b = Ok r ->
  glyph_inv r /\ height r = height a /\ width r = width a
  /\ height r = height b /\ width r = width b.
Proof.
  intros Hinv. rewrite add_ok_iff. intros (Hh & Hw & Hl & ->).
  unfold glyph_inv in *. cbn [data height width].
  rewrite or_bytes_length by assumption. auto.
Qed.

Lemma add_preserves_inv_witness :
  glyph_inv glyph_B /\ add glyph_B glyph_B = Ok (mkGlyph 16 8 (repeat 0 16) [0x42; 0x42])
  /\ (glyph_inv (mkGlyph 16 8 (repeat 0 16) [0x42; 0x42])
      /\ 16 = height glyph_B /\ 8 = width glyph_B /\ 16 = height glyph_B /\ 8 = width glyph_B).
Proof.
  assert (H1 : glyph_inv glyph_B) by (vm_compute; reflexivity).
  assert (H2 : add glyph_B glyph_B = Ok (mkGlyph 16 8 (repeat 0 16) [0x42; 0x42]))
    by (vm_compute; reflexivity).
  split; [exact H1|]. split; [exact H2|]. exact (add_preserves_inv _ _ _ H1 H2).
Defined.

(** Stacking three glyphs with [add] does not depend on the grouping:
    [(a + b) + c] succeeds with [r] iff [a + (b + c)] does. *)
Theorem add_assoc (a b c r : Glyph) :
  (x <- add a b ;; add x c) = Ok r <-> (y <- add b c ;; add a y) = Ok r.
Proof.
  unfold bind.
  destruct (add a b) as [x| |] eqn:Eab; destruct (add b c) as [y| |] eqn:Ebc;
    try (split; discriminate).
  - rewrite !add_ok_iff in *.
    destruct Eab as (H1 & H2 & H3 & ->). destruct Ebc as (H4 & H5 & H6 & ->).
    cbn [data height width grapheme]. rewrite !or_bytes_length by assumption.
    rewrite or_bytes_assoc, app_assoc by assumption.
    split; intros (? & ? & ? & ->); repeat split; congruence.
  - split; [|discriminate]. rewrite !add_ok_iff in *.
    destruct Eab as (H1 & H2 & H3 & ->). intros (H4 & H5 & H6 & _).
    cbn [data height width] in *. rewrite or_bytes_length in H6 by assumption.
    unfold add in Ebc. rewrite <- H1, <- H2, <- H4, <- H5, <- H3, <- H6 in Ebc.
    rewrite !Z.eqb_refl, Nat.eqb_refl in Ebc. discriminate.
  - split; [|discriminate]. rewrite !add_ok_iff in *.
    destruct Eab as (H1 & H2 & H3 & ->). intros (H4 & H5 & H6 & _).
    cbn [data height width] in *. rewrite or_bytes_length in H6 by assumption.
    unfold add in Ebc. rewrite <- H1, <- H2, <- H4, <- H5, <- H3, <- H6 in Ebc.
    rewrite !Z.eqb_refl, Nat.eqb_refl in Ebc. discriminate.
  - split; [discriminate|]. rewrite !add_ok_iff in *.
    destruct Ebc as (H1 & H2 & H3 & ->). intros (H4 & H5 & H6 & _).
    cbn [data height width] in *. rewrite or_bytes_length in H6 by assumption.
    unfold add in Eab. rewrite H4, H5, H6, H1, H2, H3 in Eab.
    rewrite !Z.eqb_refl, Nat.eqb_refl in Eab. discriminate.
  - split; [discriminate|]. rewrite !add_ok_iff in *.
    destruct Ebc as (H1 & H2 & H3 & ->). intros (H4 & H5 & H6 & _).
    cbn [data height width] in *. rewrite or_bytes_length in H6 by assumption.
    unfold add in Eab. rewrite H4, H5, H6, H1, H2, H3 in Eab.
    rewrite !Z.eqb_refl, Nat.eqb_refl in Eab. discriminate.
Qed.

(** ** Rendering a grapheme *)

Section RenderProps.
Variable render_char : Z -> Glyph.

Definition same_shape (a b : Glyph) : Prop :=
  height a = height b /\ width a = width b /\ length (data a) = length (data b).

Lemma fold_add_uniform (cs : list Z) (a : Glyph) :
  Forall (fun c => same_shape (render_char c) a) cs ->
  exists g,
    fold_left (fun acc g => x <- acc ;; unwrap (add x g)) (map render_char cs) (Ok a) = Ok g
    /\ same_shape g a
    /\ grapheme g = grapheme a ++ flat_map (fun c => grapheme (render_char c)) cs
    /\ forall i, nth i (data g) 0
                 = Z.lor (nth i (data a) 0)
                         (fold_right Z.lor 0 (map (fun c => nth i (data (render_char c)) 0) cs)).
Proof.
  revert a. induction cs as [|c cs IH]; intros a Hall.
  - exists a. simpl. repeat split; try reflexivity.
    + rewrite app_nil_r. reflexivity.
    + intro i. rewrite Z.lor_0_r. reflexivity.
  - inversion Hall as [|? ? (Hh & Hw & Hl) Hrest]; subst.
    set (a' := mkGlyph (height a) (width a) (or_bytes (data a) (data (render_char c)))
                       (grapheme a ++ grapheme (render_char c))).
    assert (Hadd : add a (render_char c) = Ok a') by (apply add_ok_iff; repeat split; congruence).
    assert (Hrest' : Forall (fun c => same_shape (render_char c) a') cs).
    { eapply Forall_impl; [|exact Hrest]. intros c' (H1 & H2 & H3).
      unfold a'; repeat split; cbn [height width data]; try congruence.
      rewrite or_bytes_length; congruence. }
    destruct (IH a' Hrest') as (g & Hfold & (G1 & G2 & G3) & Hgr & Hnth).
    exists g. cbn [map fold_left]. unfold bind at 2. rewrite Hadd. cbn [unwrap].
    split; [exact Hfold|].
    unfold a' in G1, G2, G3, Hgr. cbn [height width data grapheme] in *.
    rewrite or_bytes_length in G3 by congruence.
    repeat split; try assumption.
    + rewrite Hgr, <- app_assoc. reflexivity.
    + intro i. rewrite Hnth. unfold a'. cbn [data]. unfold or_bytes.
      rewrite nth_map_lor_combine by congruence. cbn [map fold_right].
      rewrite Z.lor_assoc. reflexivity.
Qed.

(** For a grapheme whose characters all render to glyphs of one shape
    (height, width, data length), [render_string] succeeds with that shape,
    the concatenated graphemes, and every data byte the OR of the
    characters' bytes at that index. *)
Theorem render_string_uniform (c : Z) (cs : list Z) :
  Forall (fun c' => same_shape (render_char c') (render_char c)) cs ->
  exists g, render_string render_char (c :: cs) = Ok g
    /\ same_shape g (render_char c)
    /\ grapheme g = flat_map (fun c' => grapheme (render_char c')) (c :: cs)
    /\ forall i, nth i (data g) 0
                 = fold_right Z.lor 0 (map (fun c' => nth i (data (render_char c')) 0) (c :: cs)).
Proof.
  intro Hall. destruct (fold_add_uniform cs (render_char c) Hall) as (g & Hf & Hs & Hg & Hn).
  exists g. unfold render_string. cbn [map]. split; [exact Hf|].
  split; [exact Hs|]. split; [rewrite Hg; reflexivity|].
  intro i. rewrite Hn. reflexivity.
Qed.

End RenderProps.

Definition render_char_blank (c : Z) : Glyph := mkGlyph 16 8 (repeat 0 16) [c].

Lemma render_string_uniform_witness :
  Forall (fun c' => same_shape (render_char_blank c') (render_char_blank 0x41)) [0x301]
  /\ exists g, render_string render_char_blank [0x41; 0x301] = Ok g
    /\ same_shape g (render_char_blank 0x41)
    /\ grapheme g = flat_map (fun c' => grapheme (render_char_blank c')) [0x41; 0x301]
    /\ forall i, nth i (data g) 0
         = fold_right Z.lor 0 (map (fun c' => nth i (data (render_char_blank c')) 0) [0x41; 0x301]).
Proof.
  assert (H : Forall (fun c' => same_shape (render_char_blank c') (render_char_blank 0x41)) [0x301]).
  { constructor; [|constructor]. unfold same_shape. vm_compute. repeat split. }
  split; [exact H|]. exact (render_string_uniform render_char_blank 0x41 [0x301] H).
Defined.

(** ** Embedded bitmap first, rasterization second ([TtfParser::render_char]) *)

Section RenderChar.
(** The font backend: the embedded raster image of a character's glyph at
    the font's pixel height ([glyph_id] then [glyph_raster_image2]), and the
    vector rasterizer [TtfParser::rasterize]. *)
Variable glyph_raster_image : Z -> option GlyphImage.
Variable rasterize : Z -> Glyph.

(** [TtfParser::find_embedded_bitmap]: a conversion error is logged and
    turned into [None]; a panic inside the conversion propagates. *)
Definition find_embedded_bitmap (c : Z) : outcome (option Glyph) GlyphError :=
  match glyph_raster_image c with
  | None => Ok None
  | Some img =>
      match from_glyph_image img c with
      | Ok g => Ok (Some g)
      | Err _ => Ok None
      | Panic => Panic
      end
  end.

(** [TtfParser::render_char] *)
Definition render_char_of (c : Z) : outcome Glyph GlyphError :=
  e <- find_embedded_bitmap c ;;
  match e with
  | Some b => Ok b
  | None => Ok (rasterize c)
  end.

(** A character is rendered by the rasterizer, without error, when the font
    has no embedded image for it or an image in a format other than the two
    monochrome ones; an embedded [BitmapMono] image is used as it is, with
    the character as grapheme. *)
Theorem render_char_fallback (c : Z) :
  (match glyph_raster_image c with
   | None => True
   | Some img => img_format img <> BitmapMono /\ img_format img <> BitmapMonoPacked
   end -> render_char_of c = Ok (rasterize c))
  /\ (forall img, glyph_raster_image c = Some img -> img_format img = BitmapMono ->
      render_char_of c = Ok (mkGlyph (img_height img) (img_width img) (img_data img) [c])).
Proof.
  unfold render_char_of, find_embedded_bitmap. split.
  - destruct (glyph_raster_image c) as [img|]; [|reflexivity].
    intros (H1 & H2). unfold from_glyph_image.
    destruct (img_format img); try contradiction; reflexivity.
  - intros img -> Hf. unfold from_glyph_image. rewrite Hf. reflexivity.
Qed.

End RenderChar.

Definition image_png : GlyphImage := mkGlyphImage 8 8 [] Png.

Lemma render_char_fallback_witness :
  render_char_of (fun _ => Some image_png) render_char_blank 0x41 = Ok (render_char_blank 0x41).
Proof.
  apply (proj1 (render_char_fallback (fun _ => Some image_png) render_char_blank 0x41)).
  cbn. split; discriminate.
Defined.

(** ** Byte layout of [Glyph::pad] *)

Lemma nth_repeat_same {A} (x : A) (n k : nat) : nth k (repeat x n) x = x.
Proof. revert k; induction n; intros [|k]; simpl; auto. Qed.

Lemma nth_skipn_add {A} (n k : nat) (l : list A) (x : A) :
  nth k (skipn n l) x = nth (n + k) l x.
Proof. revert l; induction n; intros [|y l]; simpl; auto; destruct k; reflexivity. Qed.

Lemma chunks_exact_aux_padded_nth (s p h fuel : nat) (d : list Z) (row j : nat) :
  (0 < s)%nat -> (s <= p)%nat -> length d = (h * s)%nat -> (h <= fuel)%nat ->
  (row < h)%nat -> (j < p)%nat ->
  nth (row * p + j) (flat_map (fun c => c ++ repeat 0 (p - s)) (chunks_exact_aux fuel s d)) 0
  = if Nat.ltb j s then nth (row * s + j) d 0 else 0.
Proof.
  intros Hs Hsp. revert fuel d row. induction h as [|h IH]; intros fuel d row Hd Hf Hr Hj; [lia|].
  destruct fuel as [|fuel]; [lia|]. cbn [chunks_exact_aux].
  destruct (Nat.ltb_spec (length d) s); [lia|]. cbn [flat_map].
  assert (Hc : length (firstn s d ++ repeat 0 (p - s)) = p)
    by (rewrite length_app, repeat_length, length_firstn; lia).
  destruct row as [|row].
  - simpl. destruct (Nat.ltb_spec j s).
    + rewrite <- app_assoc, app_nth1 by (rewrite length_firstn; lia).
      rewrite nth_firstn. destruct (Nat.ltb_spec j s); [reflexivity|lia].
    + rewrite app_nth1 by lia. rewrite app_nth2 by (rewrite length_firstn; lia).
      apply nth_repeat_same.
  - rewrite app_nth2 by (rewrite Hc; nia). rewrite Hc.
    replace (S row * p + j - p)%nat with (row * p + j)%nat by nia.
    rewrite (IH fuel (skipn s d) row); [|rewrite length_skipn; lia|lia|lia|lia].
    destruct (Nat.ltb j s); [|reflexivity].
    rewrite nth_skipn_add. f_equal. lia.
Qed.

(** With a positive width, [pad] succeeds; row [row] of the result starts at
    byte [row * ceil(new_width/8)], and its byte [j] is byte [j] of row [row]
    of the original when [row] and [j] lie within the original bounds
    ([height] rows of [ceil(width/8)] bytes), and zero otherwise. *)
Theorem pad_byte_layout (g : Glyph) (nh nw : Z) :
  glyph_inv g -> 0 <= height g -> 0 < width g ->
  height g <= nh -> width g <= nw ->
  exists r, pad g nh nw = Ok r
    /\ height r = nh /\ width r = nw /\ grapheme r = grapheme g
    /\ Z.of_nat (length (data r)) = nh * ceil_div8 nw
    /\ forall row j, (j < Z.to_nat (ceil_div8 nw))%nat ->
       nth (row * Z.to_nat (ceil_div8 nw) + j) (data r) 0
       = if Nat.ltb row (Z.to_nat (height g)) && Nat.ltb j (Z.to_nat (ceil_div8 (width g)))
         then nth (row * Z.to_nat (ceil_div8 (width g)) + j) (data g) 0 else 0.
Proof.
  intros Hinv Hh Hw Hnh Hnw.
  destruct (pad_positive_width_inv g nh nw Hinv Hh Hw Hnh Hnw)
    as (r & Hpad & Hrinv & Hrh & Hrw & Hrg).
  exists r. split; [exact Hpad|]. split; [exact Hrh|]. split; [exact Hrw|].
  split; [exact Hrg|]. split; [unfold glyph_inv in Hrinv; rewrite Hrinv, Hrh, Hrw; reflexivity|].
  destruct g as [h w d gr]. unfold glyph_inv, pad, ceil_div8 in *;
    cbn [height width data grapheme] in *.
  set (sr := (w + 7) / 8) in *. set (pr := (nw + 7) / 8) in *.
  assert (Hs : 1 <= sr) by (apply Z.div_le_lower_bound; lia).
  assert (Hp : sr <= pr) by (apply Z.div_le_mono; lia).
  assert (Hlen : length d = (Z.to_nat h * Z.to_nat sr)%nat).
  { apply Nat2Z.inj. rewrite Hinv, Nat2Z.inj_mul, !Z2Nat.id by lia. reflexivity. }
  rewrite (Z.gtb_ltb h nh), (Z.gtb_ltb w nw) in Hpad.
  replace (nh <? h) with false in Hpad by (symmetry; apply Z.ltb_ge; lia).
  replace (nw <? w) with false in Hpad by (symmetry; apply Z.ltb_ge; lia).
  cbn [orb] in Hpad. intros row j Hj.
  destruct (Nat.ltb_spec (Z.to_nat sr) (Z.to_nat pr)).
  - unfold chunks_exact in Hpad.
    destruct (Nat.eqb_spec (Z.to_nat sr) 0) as [E|_]; [lia|].
    cbn [bind] in Hpad. inversion Hpad; subst r. cbn [data].
    set (body := flat_map _ _).
    assert (Hbody : length body = (Z.to_nat h * Z.to_nat pr)%nat).
    { unfold body. rewrite (chunks_exact_aux_padded_length _ _ (Z.to_nat h)); [|lia|exact Hlen|nia].
      f_equal. lia. }
    destruct (Nat.ltb_spec row (Z.to_nat h)).
    + rewrite app_nth1 by (rewrite Hbody; nia). unfold body.
      rewrite (chunks_exact_aux_padded_nth _ _ (Z.to_nat h)); try lia; [|nia].
      reflexivity.
    + rewrite app_nth2 by (rewrite Hbody; nia). apply nth_repeat_same.
  - assert (Heq : Z.to_nat sr = Z.to_nat pr) by (apply Z2Nat.inj_le in Hp; lia).
    cbn [bind] in Hpad. inversion Hpad; subst r. cbn [data].
    rewrite <- Heq in *. destruct (Nat.ltb_spec row (Z.to_nat h)).
    + rewrite app_nth1 by nia. destruct (Nat.ltb_spec j (Z.to_nat sr)); [reflexivity|lia].
    + rewrite app_nth2 by nia. apply nth_repeat_same.
Qed.

Lemma pad_byte_layout_witness :
  glyph_inv glyph_B /\ 0 <= height glyph_B /\ 0 < width glyph_B
  /\ height glyph_B <= 20 /\ width glyph_B <= 12
  /\ exists r, pad glyph_B 20 12 = Ok r
    /\ height r = 20 /\ width r = 12 /\ grapheme r = grapheme glyph_B
    /\ Z.of_nat (length (data r)) = 20 * ceil_div8 12
    /\ forall row j, (j < Z.to_nat (ceil_div8 12))%nat ->
       nth (row * Z.to_nat (ceil_div8 12) + j) (data r) 0
       = if Nat.ltb row (Z.to_nat (height glyph_B)) && Nat.ltb j (Z.to_nat (ceil_div8 (width glyph_B)))
         then nth (row * Z.to_nat (ceil_div8 (width glyph_B)) + j) (data glyph_B) 0 else 0.
Proof.
  assert (H1 : glyph_inv glyph_B) by (vm_compute; reflexivity).
  assert (H2 : 0 <= height glyph_B) by (vm_compute; discriminate).
  assert (H3 : 0 < width glyph_B) by reflexivity.
  assert (H4 : height glyph_B <= 20) by (vm_compute; discriminate).
  assert (H5 : width glyph_B <= 12) by (vm_compute; discriminate).
  repeat (split; [assumption|]).
  exact (pad_byte_layout glyph_B 20 12 H1 H2 H3 H4 H5).
Defined.

(** ** Glyph-set assembly *)

Lemma map_outcome_ok_intro {A B E} (f : A -> outcome B E) (l : list A) (l' : list B) :
  Forall2 (fun x y => f x = Ok y) l l' -> map_outcome f l = Ok l'.
Proof. induction 1 as [|x y l l' Hxy _ IH]; simpl; [reflexivity|]. rewrite Hxy; cbn. rewrite IH. reflexivity. Qed.

Lemma strict_check_ok (h w l : Z) (rest : list Glyph) (u : unit) :
  strict_check h w l rest = Ok u <->
  Forall (fun g => height g = h /\ width g = w /\ length (data g) = Z.to_nat l) rest.
Proof.
  induction rest as [|g rest IH]; simpl.
  - destruct u; split; auto.
  - destruct (Z.eqb_spec (height g) h), (Z.eqb_spec (width g) w); cbn;
      try (split; [discriminate|intro H; inversion H; tauto]).
    destruct (Nat.eqb_spec (length (data g)) (Z.to_nat l)); cbn.
    + rewrite IH. split; [intro; constructor; auto|intro H; inversion H; auto].
    + split; [discriminate|intro H; inversion H; tauto].
Qed.

(** [from_vec_of_glyphs_strict] on a non-empty vector succeeds exactly when
    every later glyph has the height, width and data length of the first
    (the length compared through the [u32] cast of the first length); the
    set then keeps the glyphs in order and takes the first glyph's figures. *)
Theorem strict_ok_iff (f : Glyph) (rest : list Glyph) (gs : Psf2GlyphSet) :
  from_vec_of_glyphs_strict (f :: rest) = Ok gs <->
  gs = mkGlyphSet (f :: rest) (height f) (width f) (usize_as_u32 (length (data f)))
  /\ Forall (fun g => height g = height f /\ width g = width f
                      /\ length (data g) = Z.to_nat (usize_as_u32 (length (data f)))) rest.
Proof.
  unfold from_vec_of_glyphs_strict.
  destruct (strict_check (height f) (width f) (usize_as_u32 (length (data f))) rest) as [[]|e|] eqn:E;
    cbn [bind].
  - apply strict_check_ok in E. split; [intro H; inversion H; auto|intros [-> _]; reflexivity].
  - split; [discriminate|intros [_ H]]. apply (strict_check_ok _ _ _ _ tt) in H. congruence.
  - split; [discriminate|intros [_ H]]. apply (strict_check_ok _ _ _ _ tt) in H. congruence.
Qed.

Lemma usize_as_u32_small (n : nat) : Z.of_nat n < u32_max -> usize_as_u32 n = Z.of_nat n.
Proof. unfold usize_as_u32, u32_max. intro. apply Z.mod_small. lia. Qed.

(** When every glyph's data is shorter than 2^32 bytes, the glyph-set body
    written by [Psf2GlyphSet::write] after a strict assembly is exactly
    [glyph count * length] bytes long. *)
Theorem strict_body_length (gl : list Glyph) (gs : Psf2GlyphSet) :
  from_vec_of_glyphs_strict gl = Ok gs ->
  Forall (fun g => Z.of_nat (length (data g)) < u32_max) gl ->
  Z.of_nat (length (glyph_set_write gs)) = Z.of_nat (length gl) * gs_length gs.
Proof.
  destruct gl as [|f rest]; intros H Hb.
  - inversion H; subst. reflexivity.
  - apply strict_ok_iff in H as [-> Hall]. inversion Hb as [|? ? Hf _]; subst.
    rewrite usize_as_u32_small in Hall |- * by exact Hf. rewrite Nat2Z.id in Hall.
    unfold glyph_set_write; cbn [glyphs]. rewrite length_flat_map.
    change (Z.of_nat (length (data f) + list_sum (map (fun g => length (data g)) rest))
            = Z.of_nat (S (length rest)) * Z.of_nat (length (data f))).
    rewrite Nat2Z.inj_add, Nat2Z.inj_succ.
    assert (Hs : list_sum (map (fun g => length (data g)) rest) = (length rest * length (data f))%nat).
    { clear Hb Hf. induction Hall as [|g rest [_ [_ Hg]] _ IH]; [reflexivity|].
      change (length (data g) + list_sum (map (fun g => length (data g)) rest)
              = S (length rest) * length (data f))%nat.
      rewrite IH, Hg. lia. }
    rewrite Hs, Nat2Z.inj_mul. ring.
Qed.

Lemma strict_body_length_witness :
  from_vec_of_glyphs_strict [glyph_B; glyph_B; glyph_B] = Ok (mkGlyphSet [glyph_B; glyph_B; glyph_B] 16 8 16)
  /\ Forall (fun g => Z.of_nat (length (data g)) < u32_max) [glyph_B; glyph_B; glyph_B]
  /\ Z.of_nat (length (glyph_set_write (mkGlyphSet [glyph_B; glyph_B; glyph_B] 16 8 16)))
     = Z.of_nat (length [glyph_B; glyph_B; glyph_B]) * gs_length (mkGlyphSet [glyph_B; glyph_B; glyph_B] 16 8 16).
Proof.
  assert (H1 : from_vec_of_glyphs_strict [glyph_B; glyph_B; glyph_B]
               = Ok (mkGlyphSet [glyph_B; glyph_B; glyph_B] 16 8 16)) by (vm_compute; reflexivity).
  assert (H2 : Forall (fun g => Z.of_nat (length (data g)) < u32_max) [glyph_B; glyph_B; glyph_B])
    by (repeat constructor; vm_compute; reflexivity).
  split; [exact H1|]. split; [exact H2|]. exact (strict_body_length _ _ H1 H2).
Defined.

(** The maxima taken by [from_vec_of_glyphs_pad]. *)
Definition max_height (gl : list Glyph) : Z := fold_right (fun g m => Z.max (height g) m) 0 gl.
Definition max_width (gl : list Glyph) : Z := fold_right (fun g m => Z.max (width g) m) 0 gl.

Lemma max_height_nonneg (gl : list Glyph) : 0 <= max_height gl.
Proof. induction gl; simpl; lia. Qed.

Lemma max_width_nonneg (gl : list Glyph) : 0 <= max_width gl.
Proof. induction gl; simpl; lia. Qed.

Lemma max_bounds (gl : list Glyph) :
  Forall (fun g => height g <= max_height gl /\ width g <= max_width gl) gl.
Proof.
  induction gl as [|g gl IH]; constructor; unfold max_height, max_width in *;
    cbn [fold_right]; [lia|].
  eapply Forall_impl; [|exact IH]. intros a [H1 H2]; lia.
Qed.

Lemma pad_maxima_ok_inv (gl : list Glyph) (mh mw ml a b c : Z) :
  0 <= mh -> 0 <= mw -> pad_maxima gl mh mw ml = Ok (a, b, c) ->
  a = Z.max mh (max_height gl) /\ b = Z.max mw (max_width gl).
Proof.
  revert mh mw ml. induction gl as [|g gl IH]; simpl; intros mh mw ml Hh Hw H.
  - inversion H; subst. lia.
  - unfold u32_try_from_unwrap in H. destruct (_ <? u32_max); cbn [bind] in H; [|discriminate].
    apply IH in H as [-> ->]; lia.
Qed.

Lemma pad_maxima_ok (gl : list Glyph) (mh mw ml : Z) :
  0 <= mh -> 0 <= mw -> Forall (fun g => Z.of_nat (length (data g)) < u32_max) gl ->
  exists c, pad_maxima gl mh mw ml = Ok (Z.max mh (max_height gl), Z.max mw (max_width gl), c).
Proof.
  intros Hh Hw Hb. revert mh mw ml Hh Hw. induction Hb as [|g gl Hg _ IH]; simpl; intros mh mw ml Hh Hw.
  - exists ml. rewrite !Z.max_l by lia. reflexivity.
  - unfold u32_try_from_unwrap. destruct (Z.ltb_spec (Z.of_nat (length (data g))) u32_max); [|lia].
    cbn [bind]. destruct (IH (Z.max (height g) mh) (Z.max (width g) mw)
                            (Z.max (Z.of_nat (length (data g))) ml)) as [c Hc]; [lia|lia|].
    exists c. rewrite Hc.
    replace (Z.max (Z.max (height g) mh) (max_height gl))
      with (Z.max mh (Z.max (height g) (max_height gl))) by lia.
    replace (Z.max (Z.max (width g) mw) (max_width gl))
      with (Z.max mw (Z.max (width g) (max_width gl))) by lia.
    reflexivity.
Qed.

Lemma lift_glyph_error_ok {A} (m : outcome A GlyphError) (x : A) :
  lift_glyph_error m = Ok x -> m = Ok x.
Proof.
  destruct m as [a|e|]; cbn; [congruence| |discriminate].
  destruct e; cbn; discriminate.
Qed.

Lemma pad_ok_shape (g r : Glyph) (nh nw : Z) :
  pad g nh nw = Ok r -> height r = nh /\ width r = nw /\ grapheme r = grapheme g.
Proof.
  unfold pad. destruct (_ || _); [discriminate|].
  destruct (Nat.ltb _ _); [unfold chunks_exact; destruct (Nat.eqb _ 0)|]; cbn [bind];
    try discriminate; intro H; inversion H; auto.
Qed.

(** A successful [from_vec_of_glyphs_pad] keeps the glyphs' order and
    graphemes, and every glyph of the set, like the set itself, has the
    largest height and the largest width of the input. *)
Theorem pad_mode_shape (gl : list Glyph) (gs : Psf2GlyphSet) :
  from_vec_of_glyphs_pad gl = Ok gs ->
  map grapheme (glyphs gs) = map grapheme gl
  /\ gs_height gs = max_height gl /\ gs_width gs = max_width gl
  /\ Forall (fun g => height g = max_height gl /\ width g = max_width gl) (glyphs gs).
Proof.
  unfold from_vec_of_glyphs_pad.
  destruct (pad_maxima gl 0 0 0) as [[[a b] c]|e|] eqn:Em; cbn [bind]; try discriminate.
  apply pad_maxima_ok_inv in Em as [Ea Eb]; [|lia|lia].
  rewrite Z.max_r in Ea, Eb by (apply max_height_nonneg || apply max_width_nonneg). subst a b.
  destruct (map_outcome _ gl) as [padded|e|] eqn:Ep; cbn [bind]; try discriminate.
  apply map_outcome_ok in Ep.
  assert (Hgl : gl = [] -> max_height gl = 0 /\ max_width gl = 0) by (intros ->; auto).
  revert Hgl Ep. generalize (max_height gl) (max_width gl); intros mh mw Hgl Ep.
  assert (Hp : map grapheme padded = map grapheme gl
               /\ Forall (fun g => height g = mh /\ width g = mw) padded).
  { clear Hgl. induction Ep as [|g r gl' pl' Hgr _ [IH1 IH2]]; [split; auto|].
    apply lift_glyph_error_ok, pad_ok_shape in Hgr as (H1 & H2 & H3).
    cbn [map]. rewrite IH1, H3. split; [reflexivity|constructor; auto]. }
  destruct Hp as [Hg Hd].
  destruct padded as [|f rest].
  - intro H; inversion H; subst. cbn. destruct gl; [|discriminate].
    destruct Hgl as [-> ->]; auto.
  - intros H. apply strict_ok_iff in H as [-> _]. cbn [glyphs gs_height gs_width].
    inversion Hd as [|? ? [Hf1 Hf2] _]; subst. auto.
Qed.

(** [from_vec_of_glyphs_pad] succeeds when every glyph keeps the layout
    invariant with a non-negative height and a positive width, and the
    padded size [max height * ceil(max width / 8)] fits in a [u32]; every
    padded glyph then keeps the invariant and the set's length is that size. *)
Theorem pad_mode_succeeds (gl : list Glyph) :
  Forall (fun g => glyph_inv g /\ 0 <= height g /\ 0 < width g) gl ->
  max_height gl * ceil_div8 (max_width gl) < u32_max ->
  exists gs, from_vec_of_glyphs_pad gl = Ok gs
    /\ gs_length gs = max_height gl * ceil_div8 (max_width gl)
    /\ Forall glyph_inv (glyphs gs).
Proof.
  intros Hall Hsize.
  set (mh := max_height gl) in *. set (mw := max_width gl) in *.
  assert (Hmh : Forall (fun g => height g <= mh /\ width g <= mw) gl) by apply max_bounds.
  assert (Hmw : 0 <= mw) by apply max_width_nonneg.
  assert (Hmh0 : 0 <= mh) by apply max_height_nonneg.
  assert (Hc : 0 <= ceil_div8 mw) by (unfold ceil_div8; apply Z.div_pos; lia).
  assert (Hb : Forall (fun g => Z.of_nat (length (data g)) < u32_max) gl).
  { rewrite Forall_forall in *. intros g Hin.
    destruct (Hall g Hin) as (Hi & Hh & Hw). destruct (Hmh g Hin) as [Hh' Hw'].
    unfold glyph_inv in Hi. rewrite Hi.
    assert (ceil_div8 (width g) <= ceil_div8 mw) by (unfold ceil_div8; apply Z.div_le_mono; lia).
    assert (0 <= ceil_div8 (width g)) by (unfold ceil_div8; apply Z.div_pos; lia).
    nia. }
  destruct (pad_maxima_ok gl 0 0 0 (Z.le_refl 0) (Z.le_refl 0) Hb) as [c Hm].
  fold mh mw in Hm. rewrite Z.max_r in Hm by exact Hmh0. rewrite Z.max_r in Hm by exact Hmw.
  assert (Hgl : gl = [] -> mh = 0) by (intros ->; reflexivity).
  clearbody mh mw.
  assert (Hpad : exists padded,
             map_outcome (fun g => lift_glyph_error (pad g mh mw)) gl = Ok padded
             /\ Forall (fun r => glyph_inv r /\ height r = mh /\ width r = mw) padded
             /\ length padded = length gl).
  { clear Hm Hb Hgl. induction gl as [|g gl IH]; [exists []; auto|].
    inversion Hall as [|? ? (Hi & Hh & Hw) Hall']; subst.
    inversion Hmh as [|? ? [Hh' Hw'] Hmh']; subst.
    destruct (pad_positive_width_inv g mh mw Hi Hh Hw Hh' Hw') as (r & Hr & Hri & Hrh & Hrw & _).
    destruct (IH Hall' Hmh') as (pl & Hpl & Hpf & Hlen).
    exists (r :: pl). split; [|split; [constructor; auto|cbn; congruence]].
    cbn [map_outcome]. rewrite Hr. cbn [lift_glyph_error map_err bind]. rewrite Hpl. reflexivity. }
  destruct Hpad as (padded & Hpl & Hpf & Hlen).
  unfold from_vec_of_glyphs_pad. rewrite Hm. cbn [bind].
  change (map_outcome (fun g => lift_glyph_error (pad g mh mw)) gl = Ok padded) in Hpl.
  rewrite Hpl. cbn [bind].
  destruct padded as [|f rest].
  - eexists; split; [reflexivity|]. cbn. split; [|constructor].
    destruct gl; [|discriminate]. rewrite Hgl by reflexivity. reflexivity.
  - apply Forall_cons_iff in Hpf as [(Hfi & Hfh & Hfw) Hrest].
    assert (Hfl : Z.of_nat (length (data f)) = mh * ceil_div8 mw)
      by (unfold glyph_inv in Hfi; rewrite Hfi, Hfh, Hfw; reflexivity).
    assert (Hu : usize_as_u32 (length (data f)) = mh * ceil_div8 mw)
      by (rewrite usize_as_u32_small; lia).
    exists (mkGlyphSet (f :: rest) (height f) (width f) (usize_as_u32 (length (data f)))).
    split; [|split; [exact Hu|]].
    2:{ cbn [glyphs]. constructor; [exact Hfi|].
        eapply Forall_impl; [|exact Hrest]. intros g [Hg _]; exact Hg. }
    apply strict_ok_iff. split; [reflexivity|].
    eapply Forall_impl; [|exact Hrest]. intros g (Hgi & Hgh & Hgw).
    split; [congruence|]. split; [congruence|].
    rewrite Hu. apply Nat2Z.inj. rewrite Z2Nat.id by nia.
    unfold glyph_inv in Hgi. rewrite Hgi, Hgh, Hgw. reflexivity.
Qed.

Definition glyph_i : Glyph := mkGlyph 10 5 (repeat 0 10) [0x69].

Lemma pad_mode_shape_witness :
  exists gs, from_vec_of_glyphs_pad [glyph_i; glyph_B] = Ok gs
    /\ map grapheme (glyphs gs) = map grapheme [glyph_i; glyph_B]
    /\ gs_height gs = max_height [glyph_i; glyph_B] /\ gs_width gs = max_width [glyph_i; glyph_B]
    /\ Forall (fun g => height g = max_height [glyph_i; glyph_B]
                        /\ width g = max_width [glyph_i; glyph_B]) (glyphs gs).
Proof.
  eexists. split; [vm_compute; reflexivity|].
  apply (pad_mode_shape [glyph_i; glyph_B]). vm_compute. reflexivity.
Defined.

Lemma pad_mode_succeeds_witness :
  Forall (fun g => glyph_inv g /\ 0 <= height g /\ 0 < width g) [glyph_i; glyph_B]
  /\ max_height [glyph_i; glyph_B] * ceil_div8 (max_width [glyph_i; glyph_B]) < u32_max
  /\ exists gs, from_vec_of_glyphs_pad [glyph_i; glyph_B] = Ok gs
    /\ gs_length gs = max_height [glyph_i; glyph_B] * ceil_div8 (max_width [glyph_i; glyph_B])
    /\ Forall glyph_inv (glyphs gs).
Proof.
  assert (H1 : Forall (fun g => glyph_inv g /\ 0 <= height g /\ 0 < width g) [glyph_i; glyph_B])
    by (repeat constructor; vm_compute; first [reflexivity | discriminate]).
  assert (H2 : max_height [glyph_i; glyph_B] * ceil_div8 (max_width [glyph_i; glyph_B]) < u32_max)
    by (vm_compute; reflexivity).
  split; [exact H1|]. split; [exact H2|]. exact (pad_mode_succeeds _ H1 H2).
Defined.

(** ** Glyph sets built from a table or from a codepoint range *)

Section GlyphSetNew.
Variable render_char : Z -> Glyph.

(** [char::from_u32(i).expect(...)] *)
Definition char_from_u32_expect (i : Z) : outcome Z GlyphSetError :=
  if ((0xD800 <=? i) && (i <=? 0xDFFF)) || (i >? 0x10FFFF) then Panic else Ok i.

(** [Psf2GlyphSet::new]: renders the characters [0 .. glyph_count] in order. *)
Definition new (glyph_count : Z) (pad_mode : bool) : outcome Psf2GlyphSet GlyphSetError :=
  gl <- map_outcome (fun i => c <- char_from_u32_expect i ;; Ok (render_char c))
          (map Z.of_nat (seq 0 (Z.to_nat glyph_count))) ;;
  if pad_mode then from_vec_of_glyphs_pad gl else from_vec_of_glyphs_strict gl.

Lemma map_outcome_in_panic {A B E} (f : A -> outcome B E) (l : list A) (x : A) :
  (forall y e, f y <> Err e) -> In x l -> f x = Panic -> map_outcome f l = Panic.
Proof.
  intros Hf Hin Hx. induction l as [|y l IH]; [destruct Hin|].
  destruct Hin as [<-|Hin]; cbn [map_outcome].
  - rewrite Hx. reflexivity.
  - destruct (f y) as [b|e|] eqn:Ey; cbn [bind]; [|exfalso; eapply Hf; exact Ey|reflexivity].
    rewrite IH by exact Hin. reflexivity.
Qed.

Lemma map_outcome_low_codepoints (l : list Z) :
  Forall (fun i => 0 <= i < 0xD800) l ->
  map_outcome (fun i => c <- char_from_u32_expect i ;; Ok (render_char c)) l
  = Ok (map render_char l).
Proof.
  induction 1 as [|i l Hi _ IH]; [reflexivity|]. cbn [map_outcome map].
  assert (E : char_from_u32_expect i = Ok i).
  { unfold char_from_u32_expect.
  replace (((0xD800 <=? i) && (i <=? 0xDFFF)) || (i >? 0x10FFFF)) with false
    by (symmetry; apply orb_false_iff; split;
        [apply andb_false_iff; left; apply Z.leb_gt; lia|rewrite Z.gtb_ltb; apply Z.ltb_ge; lia]).
    reflexivity. }
  rewrite E. cbn [bind]. rewrite IH. reflexivity.
Qed.

(** [Psf2GlyphSet::new] renders the codepoints [0 .. glyph_count] in order
    and hands them to the chosen assembly when [glyph_count <= 0xD800]; for a
    larger count the range reaches the surrogate [0xD800], where
    [char::from_u32] gives [None] and the [expect] panics. *)
Theorem new_codepoint_range (n : Z) (pad_mode : bool) :
  0 <= n ->
  (n <= 0xD800 ->
   new n pad_mode
   = (if pad_mode then from_vec_of_glyphs_pad else from_vec_of_glyphs_strict)
       (map render_char (map Z.of_nat (seq 0 (Z.to_nat n)))))
  /\ (0xD800 < n -> new n pad_mode = Panic).
Proof.
  intro Hn. unfold new. split; intro Hb.
  - rewrite map_outcome_low_codepoints; [cbn [bind]; destruct pad_mode; reflexivity|].
    apply Forall_forall. intros i Hi. apply in_map_iff in Hi as (k & <- & Hk).
    apply in_seq in Hk. lia.
  - rewrite (map_outcome_in_panic _ _ 0xD800); [reflexivity| | |].
    + intros y e. unfold char_from_u32_expect.
      destruct (_ || _); cbn [bind]; discriminate.
    + apply in_map_iff. exists (Z.to_nat 0xD800). split; [reflexivity|]. apply in_seq. lia.
    + reflexivity.
Qed.

Lemma render_fold_not_ok (rest : list Glyph) (m : outcome Glyph GlyphError) :
  (forall a, m <> Ok a) ->
  forall g, fold_left (fun acc g => a <- acc ;; unwrap (add a g)) rest m <> Ok g.
Proof.
  revert m. induction rest as [|x rest IH]; cbn [fold_left]; intros m Hm g; [apply Hm|].
  apply IH. intros a. destruct m as [b|e|]; [exfalso; eapply Hm; reflexivity| |]; discriminate.
Qed.

Lemma render_fold_grapheme (rest : list Glyph) (a0 g : Glyph) :
  fold_left (fun acc g => a <- acc ;; unwrap (add a g)) rest (Ok a0) = Ok g ->
  grapheme g = grapheme a0 ++ flat_map grapheme rest.
Proof.
  revert a0. induction rest as [|x rest IH]; cbn [fold_left flat_map]; intros a0 H.
  - inversion H. rewrite app_nil_r. reflexivity.
  - cbn [bind] in H. destruct (add a0 x) as [r|e|] eqn:E; cbn [unwrap] in H.
    + apply IH in H. apply add_ok_iff in E as (_ & _ & _ & ->).
      rewrite H. cbn [grapheme]. rewrite app_assoc. reflexivity.
    + exfalso. eapply render_fold_not_ok; [|exact H]. intros a; discriminate.
    + exfalso. eapply render_fold_not_ok; [|exact H]. intros a; discriminate.
Qed.

Lemma render_string_grapheme (s : Grapheme) (g : Glyph) :
  render_string render_char s = Ok g -> grapheme g = flat_map (fun c => grapheme (render_char c)) s.
Proof.
  unfold render_string. destruct s as [|c s]; cbn [map]; [discriminate|].
  intro H. apply render_fold_grapheme in H. rewrite H. cbn [flat_map]. f_equal.
  clear H. induction s as [|c' s IH]; cbn; [reflexivity|]. rewrite IH. reflexivity.
Qed.

(** A glyph set built by [new_with_unicode_table] has one glyph per
    equivalence set, in table order: every set is non-empty and glyph [i]
    carries the graphemes rendered from the first grapheme of set [i]. *)
Theorem new_with_unicode_table_graphemes (table : list (list Grapheme)) (pad_mode : bool)
  (gs : Psf2GlyphSet) :
  new_with_unicode_table render_char table pad_mode = Ok gs ->
  Forall (fun set => set <> []) table
  /\ map grapheme (glyphs gs)
     = map (fun set => flat_map (fun c => grapheme (render_char c)) (hd [] set)) table.
Proof.
  unfold new_with_unicode_table.
  destruct (map_outcome _ table) as [gl|e|] eqn:E; cbn [bind]; try discriminate.
  apply map_outcome_ok in E.
  assert (Hgl : Forall (fun set => set <> []) table
                /\ map grapheme gl
                   = map (fun set => flat_map (fun c => grapheme (render_char c)) (hd [] set)) table).
  { induction E as [|set g table gl Hsg _ [IH1 IH2]]; [split; [constructor|reflexivity]|].
    destruct set as [|ref rest]; [discriminate|].
    apply lift_glyph_error_ok, render_string_grapheme in Hsg.
    split; [constructor; [discriminate|exact IH1]|]. cbn [map hd]. rewrite Hsg, IH2. reflexivity. }
  destruct Hgl as [Hne Hmap]. intro H. split; [exact Hne|]. rewrite <- Hmap.
  destruct pad_mode.
  - apply pad_mode_shape in H as [H _]. exact H.
  - destruct gl as [|f rest]; [inversion H; reflexivity|].
    apply strict_ok_iff in H as [-> _]. reflexivity.
Qed.

End GlyphSetNew.

Lemma new_codepoint_range_witness :
  new render_char_blank 3 false
  = from_vec_of_glyphs_strict (map render_char_blank [0; 1; 2])
  /\ new render_char_blank 0xD801 true = Panic.
Proof.
  split.
  - apply (proj1 (new_codepoint_range render_char_blank 3 false ltac:(lia))). lia.
  - apply (proj2 (new_codepoint_range render_char_blank 0xD801 true ltac:(lia))). lia.
Defined.

Lemma new_with_unicode_table_graphemes_witness :
  exists gs, new_with_unicode_table render_char_blank [[[0x41]; [0x391]]; [[0x42]]] false = Ok gs
    /\ Forall (fun set => set <> []) [[[0x41]; [0x391]]; [[0x42]]]
    /\ map grapheme (glyphs gs)
       = map (fun set => flat_map (fun c => grapheme (render_char_blank c)) (hd [] set))
             [[[0x41]; [0x391]]; [[0x42]]].
Proof.
  eexists. split; [vm_compute; reflexivity|].
  apply (new_with_unicode_table_graphemes render_char_blank _ false). vm_compute. reflexivity.
Defined.

(** ** Loading a table *)

Lemma insert_by_key_perm {A} (key : A -> nat) (x : A) (l : list A) :
  Permutation (insert_by_key key x l) (x :: l).
Proof.
  induction l as [|y l IH]; cbn; [reflexivity|].
  destruct (Nat.leb _ _); [reflexivity|].
  rewrite IH. apply perm_swap.
Qed.

Lemma sort_by_key_perm {A} (key : A -> nat) (l : list A) : Permutation (sort_by_key key l) l.
Proof.
  induction l as [|x l IH]; cbn; [reflexivity|].
  rewrite insert_by_key_perm, IH. reflexivity.
Qed.

(** A Unicode scalar value: at most [0x10FFFF] and outside the surrogates. *)
Definition scalar_value (c : Z) : Prop := c <= 0x10FFFF /\ ~ (0xD800 <= c <= 0xDFFF).

Lemma parse_codepoint_ok (v w : Z) : parse_codepoint v = Ok w -> w = v /\ scalar_value v.
Proof.
  unfold parse_codepoint, scalar_value.
  destruct (Z.geb_spec v u32_max); [discriminate|].
  destruct (Z.leb_spec 0xD800 v), (Z.leb_spec v 0xDFFF), (Z.gtb_spec v 0x10FFFF); cbn;
    try discriminate; intro E; inversion E; subst; split; auto; lia.
Qed.

Lemma map_outcome_parse_codepoint (l l' : list Z) :
  map_outcome parse_codepoint l = Ok l' -> l' = l /\ Forall scalar_value l.
Proof.
  intro H. apply map_outcome_ok in H. induction H as [|x y l l' Hxy _ [-> IH]]; [auto|].
  apply parse_codepoint_ok in Hxy as [-> Hs]. auto.
Qed.

Definition tokens (pg : ParsedGrapheme) : Grapheme := first_codepoint pg :: more_codepoints pg.

(** [UnicodeTable::from_file] keeps one set per row, truncated to the glyph
    count when one is given; set [i] holds exactly the graphemes of row [i]
    (reordered only), and every codepoint of the table is a Unicode scalar
    value. *)
Theorem unicode_table_from_parse_rows (rows : list ParsedRow) (gc : option Z) (t : UnicodeTable) :
  unicode_table_from_parse rows gc = Ok t ->
  length t = match gc with Some n => Nat.min (Z.to_nat n) (length rows) | None => length rows end
  /\ (forall i set, nth_error t i = Some set ->
        exists row, nth_error rows i = Some row /\ Permutation set (map tokens row))
  /\ Forall (Forall (Forall scalar_value)) t.
Proof.
  intro Ht. split; [|split].
  - unfold unicode_table_from_parse in Ht.
    destruct (map_outcome parse_row rows) as [d| |] eqn:Ed; cbn [bind] in Ht; try discriminate.
    apply map_outcome_ok, Forall2_length in Ed.
    destruct gc; inversion Ht; subst; [rewrite length_firstn|]; congruence.
  - intros i set Hi.
    destruct (table_set_origin rows gc t i set Ht Hi) as (row & gs & Hrow & Hgs & ->).
    exists row. split; [exact Hrow|]. rewrite sort_by_key_perm.
    apply map_outcome_ok in Hgs. clear Hrow Hi Ht.
    induction Hgs as [|pg g row gs Hpg _ IH]; [reflexivity|].
    apply map_outcome_parse_codepoint in Hpg as [-> _]. cbn [map]. rewrite IH. reflexivity.
  - apply Forall_forall. intros set Hin. destruct (In_nth_error _ _ Hin) as (i & Hi).
    destruct (table_set_origin rows gc t i set Ht Hi) as (row & gs & _ & Hgs & ->).
    apply Forall_forall. intros g Hg. apply in_sort_by_key in Hg.
    apply map_outcome_ok in Hgs.
    destruct (In_nth_error _ _ Hg) as (j & Hj).
    destruct (forall2_nth_error_r _ _ _ _ _ Hgs Hj) as (pg & _ & Hpg).
    apply map_outcome_parse_codepoint in Hpg as [-> Hs]. exact Hs.
Qed.

Lemma unicode_table_from_parse_rows_witness :
  exists t, unicode_table_from_parse [row_B_acute_A; [mkParsedGrapheme 0x43 []]] (Some 1) = Ok t
  /\ length t = Nat.min (Z.to_nat 1) (length [row_B_acute_A; [mkParsedGrapheme 0x43 []]])
  /\ (forall i set, nth_error t i = Some set ->
        exists row, nth_error [row_B_acute_A; [mkParsedGrapheme 0x43 []]] i = Some row
                    /\ Permutation set (map tokens row))
  /\ Forall (Forall (Forall scalar_value)) t.
Proof.
  eexists. split; [vm_compute; reflexivity|].
  apply (unicode_table_from_parse_rows _ (Some 1)). vm_compute. reflexivity.
Defined.

(** ** Writing a table *)

Lemma lor_enum (k n b x : Z) :
  forallb (fun y => (0 <=? Z.lor k y) && (Z.lor k y <? b)) (map Z.of_nat (seq 0 (Z.to_nat n))) = true ->
  0 <= x < n -> 0 <= Z.lor k x < b.
Proof.
  intros H Hx. rewrite forallb_forall in H.
  assert (Hin : In x (map Z.of_nat (seq 0 (Z.to_nat n)))).
  { apply in_map_iff. exists (Z.to_nat x). split; [lia|]. apply in_seq. lia. }
  specialize (H x Hin). apply andb_true_iff in H as [H1 H2].
  apply Z.leb_le in H1. apply Z.ltb_lt in H2. lia.
Qed.

Lemma shiftr_range (c k n : Z) : 0 <= k -> 0 <= c < n * 2 ^ k -> 0 <= Z.shiftr c k < n.
Proof.
  intros Hk Hc. rewrite Z.shiftr_div_pow2 by exact Hk.
  assert (0 < 2 ^ k) by (apply Z.pow_pos_nonneg; lia).
  split; [apply Z.div_pos; lia|]. apply Z.div_lt_upper_bound; lia.
Qed.

Lemma land63_range (x : Z) : 0 <= Z.land x 0x3F < 64.
Proof.
  change 0x3F with (Z.ones 6). rewrite Z.land_ones by lia.
  apply Z.mod_pos_bound. reflexivity.
Qed.

(** Every byte of the UTF-8 encoding of a codepoint up to [0x10FFFF] is
    below [0xF8]: the separator [0xFE] and the terminator [0xFF] never occur. *)
Lemma utf8_char_range (c : Z) :
  0 <= c <= 0x10FFFF -> Forall (fun b => 0 <= b < 0xF8) (utf8_char c).
Proof.
  intro Hc. unfold utf8_char.
  assert (Hcont : forall x, 0 <= Z.lor 0x80 (Z.land x 0x3F) < 0xF8)
    by (intro x; apply (lor_enum _ 64); [vm_compute; reflexivity|apply land63_range]).
  destruct (Z.ltb_spec c 0x80); [constructor; [lia|constructor]|].
  destruct (Z.ltb_spec c 0x800).
  { apply Forall_cons; [apply (lor_enum _ 32); [vm_compute; reflexivity|apply shiftr_range; cbn; lia]|].
    repeat (apply Forall_cons; [apply Hcont|]). constructor. }
  destruct (Z.ltb_spec c 0x10000).
  { apply Forall_cons; [apply (lor_enum _ 16); [vm_compute; reflexivity|apply shiftr_range; cbn; lia]|].
    repeat (apply Forall_cons; [apply Hcont|]). constructor. }
  apply Forall_cons; [apply (lor_enum _ 5); [vm_compute; reflexivity|apply shiftr_range; cbn; lia]|].
  repeat (apply Forall_cons; [apply Hcont|]). constructor.
Qed.

Lemma count_occ_small (l : list Z) (v : Z) :
  Forall (fun b => 0 <= b < 0xF8) l -> 0xF8 <= v -> count_occ Z.eq_dec l v = 0%nat.
Proof.
  intros Hl Hv. apply count_occ_not_In. intro Hin.
  rewrite Forall_forall in Hl. specialize (Hl v Hin). lia.
Qed.

Lemma as_bytes_range (g : Grapheme) :
  Forall (fun c => 0 <= c <= 0x10FFFF) g -> Forall (fun b => 0 <= b < 0xF8) (as_bytes g).
Proof.
  induction 1 as [|c g Hc _ IH]; [constructor|]. unfold as_bytes; cbn [flat_map].
  apply Forall_app. split; [apply utf8_char_range; exact Hc|exact IH].
Qed.

(** For codepoints up to [0x10FFFF], the byte stream of
    [UnicodeTable::write] holds exactly one terminator [0xFF] per equivalence
    set, and one separator [0xFE] per grapheme of more than one codepoint:
    the framing bytes never occur inside the UTF-8 text. *)
Theorem unicode_table_write_framing (t : UnicodeTable) :
  Forall (Forall (Forall (fun c => 0 <= c <= 0x10FFFF))) t ->
  count_occ Z.eq_dec (unicode_table_write t) term = length t
  /\ count_occ Z.eq_dec (unicode_table_write t) ss
     = length (filter (fun g => negb (Nat.eqb (char_count g) 1)) (concat t)).
Proof.
  unfold unicode_table_write.
  induction 1 as [|set t Hset _ [IH1 IH2]]; [split; reflexivity|].
  cbn [flat_map concat length]. rewrite !count_occ_app, IH1, IH2, filter_app, length_app.
  assert (Hs : count_occ Z.eq_dec (flat_map write_grapheme set) term = 0%nat
               /\ count_occ Z.eq_dec (flat_map write_grapheme set) ss
                  = length (filter (fun g => negb (Nat.eqb (char_count g) 1)) set)).
  { induction Hset as [|g set Hg _ [J1 J2]]; [split; reflexivity|].
    cbn [flat_map filter]. rewrite !count_occ_app, J1, J2.
    pose proof (as_bytes_range g Hg) as Hb.
    unfold write_grapheme. destruct (Nat.eqb (char_count g) 1); cbn [negb].
    - rewrite !(count_occ_small _ _ Hb) by (unfold term, ss; lia). auto.
    - cbn [count_occ length]. unfold term, ss.
      destruct (Z.eq_dec 0xFE 0xFF); [discriminate|].
      destruct (Z.eq_dec 0xFE 0xFE); [|contradiction].
      rewrite !(count_occ_small _ _ Hb) by lia. auto. }
  destruct Hs as [-> ->]. cbn [count_occ]. unfold term, ss.
  destruct (Z.eq_dec 0xFF 0xFF); [|contradiction].
  destruct (Z.eq_dec 0xFF 0xFE); [discriminate|]. split; lia.
Qed.

Lemma unicode_table_write_framing_witness :
  Forall (Forall (Forall (fun c => 0 <= c <= 0x10FFFF))) [[[0x41]; [0x41; 0x301]]; [[0x10FFFF]]]
  /\ count_occ Z.eq_dec (unicode_table_write [[[0x41]; [0x41; 0x301]]; [[0x10FFFF]]]) term
     = length [[[0x41]; [0x41; 0x301]]; [[0x10FFFF]]]
  /\ count_occ Z.eq_dec (unicode_table_write [[[0x41]; [0x41; 0x301]]; [[0x10FFFF]]]) ss
     = length (filter (fun g => negb (Nat.eqb (char_count g) 1))
                      (concat [[[0x41]; [0x41; 0x301]]; [[0x10FFFF]]])).
Proof.
  assert (H : Forall (Forall (Forall (fun c => 0 <= c <= 0x10FFFF))) [[[0x41]; [0x41; 0x301]]; [[0x10FFFF]]])
    by (repeat constructor; lia).
  split; [exact H|]. exact (unicode_table_write_framing _ H).
Defined.

(** ** The PSF2 header *)

(** [u32::from_le_bytes], the inverse reading of a header field. *)
Definition u32_from_le_bytes (bs : list Z) : Z :=
  match bs with
  | [b0; b1; b2; b3] => b0 + 256 * b1 + 65536 * b2 + 16777216 * b3
  | _ => 0
  end.

Lemma mod_mul_split (a b c : Z) : 0 < b -> 0 < c -> a mod (b * c) = a mod b + b * ((a / b) mod c).
Proof.
  intros Hb Hc. symmetry. apply (Z.mod_unique _ _ ((a / b) / c)).
  - pose proof (Z.mod_pos_bound a b Hb). pose proof (Z.mod_pos_bound (a / b) c Hc). left; nia.
  - rewrite (Z.div_mod a b) at 1 by lia. rewrite (Z.div_mod (a / b) c) at 1 by lia. ring.
Qed.

Lemma to_le_bytes_decode (x : Z) : u32_from_le_bytes (to_le_bytes x) = x mod u32_max.
Proof.
  unfold u32_from_le_bytes, to_le_bytes, u32_max.
  change 255 with (Z.ones 8). rewrite !Z.land_ones, !Z.shiftr_div_pow2 by lia.
  change (2 ^ 32) with (2 ^ 8 * (2 ^ 8 * (2 ^ 8 * 2 ^ 8))).
  rewrite !mod_mul_split by (cbn; lia).
  rewrite !Z.div_div by (cbn; lia).
  change (2 ^ 8 * 2 ^ 8) with (2 ^ 16). change (2 ^ 16 * 2 ^ 8) with (2 ^ 24). ring.
Qed.

Lemma to_le_bytes_decode' (x : Z) :
  u32_from_le_bytes [Z.land x 255; Z.land (Z.shiftr x 8) 255;
                     Z.land (Z.shiftr x 16) 255; Z.land (Z.shiftr x 24) 255] = x mod u32_max.
Proof. exact (to_le_bytes_decode x). Qed.

Lemma to_le_bytes_range (x : Z) : Forall (fun b => 0 <= b < 256) (to_le_bytes x).
Proof.
  unfold to_le_bytes. change 255 with (Z.ones 8). rewrite !Z.land_ones by lia.
  repeat constructor; apply Z.mod_pos_bound; reflexivity.
Qed.

(** [Psf2Header::write] produces 32 bytes, each a byte value: the magic
    number, then seven little-endian [u32] fields that read back as the
    version 0, the header size 32, the flag word (1 exactly when a Unicode
    table follows), and the glyph count, glyph size, height and width
    (each modulo 2^32). *)
Theorem header_write_fields (h : Psf2Header) :
  length (header_write h) = 32%nat
  /\ Forall (fun b => 0 <= b < 256) (header_write h)
  /\ firstn 4 (header_write h) = PSF2_MAGIC_BYTES
  /\ map (fun k => u32_from_le_bytes (firstn 4 (skipn (4 * k) (header_write h)))) (seq 1 7)
     = [0; 32; Z.b2z (unicode_table_exists h); glyph_count h mod u32_max;
        glyph_size h mod u32_max; glyph_height h mod u32_max; glyph_width h mod u32_max].
Proof.
  destruct h as [f c s hh w]. unfold header_write. cbn [unicode_table_exists glyph_count
    glyph_size glyph_height glyph_width].
  split.
  { rewrite !length_app. unfold PSF2_MAGIC_BYTES, PSF2_VERSION, PSF2_HEADER_SIZE, to_le_bytes.
    cbn [length]. reflexivity. }
  split.
  { apply Forall_app; split.
    { unfold PSF2_MAGIC_BYTES. repeat (apply Forall_cons; [lia|]). constructor. }
    apply Forall_app; split.
    { unfold PSF2_VERSION. repeat (apply Forall_cons; [lia|]). constructor. }
    do 5 (apply Forall_app; split; [apply to_le_bytes_range|]).
    apply to_le_bytes_range. }
  unfold PSF2_MAGIC_BYTES, PSF2_VERSION, PSF2_HEADER_SIZE, to_le_bytes.
  split; [reflexivity|].
  cbn [seq map Nat.mul Nat.add app skipn firstn].
  rewrite !to_le_bytes_decode'.
  rewrite (Z.mod_small 32), (Z.mod_small (Z.b2z f)) by (unfold u32_max; destruct f; cbn; lia).
  reflexivity.
Qed.

(** ** Packed embedded bitmaps *)

Lemma bits_of_byte_of_bits (l : list bool) : length l = 8%nat -> bits_of_byte (byte_of_bits l) = l.
Proof.
  intro H.
  destruct l as [|b0 [|b1 [|b2 [|b3 [|b4 [|b5 [|b6 [|b7 [|]]]]]]]]]; try discriminate.
  destruct b0, b1, b2, b3, b4, b5, b6, b7; reflexivity.
Qed.

Lemma length_bits_of_byte (b : Z) : length (bits_of_byte b) = 8%nat.
Proof. reflexivity. Qed.

Lemma length_view_bits (d : list Z) : length (view_bits d) = (8 * length d)%nat.
Proof.
  induction d as [|b d IH]; [reflexivity|].
  unfold view_bits in *. cbn [flat_map length]. rewrite length_app, IH, length_bits_of_byte. lia.
Qed.

Lemma into_vec_aux_exact (k fuel : nat) (bs : list bool) :
  length bs = (8 * k)%nat -> (k <= fuel)%nat ->
  view_bits (into_vec_aux fuel bs) = bs /\ length (into_vec_aux fuel bs) = k.
Proof.
  revert fuel bs. induction k as [|k IH]; intros fuel bs Hl Hk.
  - destruct bs; [|discriminate]. destruct fuel; split; reflexivity.
  - destruct fuel as [|fuel]; [lia|]. destruct bs as [|b bs']; [discriminate|].
    cbn [into_vec_aux]. set (bs := b :: bs') in *.
    destruct (IH fuel (skipn 8 bs)) as [IH1 IH2]; [rewrite length_skipn; lia|lia|].
    unfold view_bits in *. cbn [flat_map length]. rewrite IH1, IH2.
    rewrite bits_of_byte_of_bits by (rewrite length_firstn; lia).
    split; [apply firstn_skipn|reflexivity].
Qed.

Lemma chunks_exact_aux_padded_nth_gen {A} (x : A) (s p h fuel : nat) (d : list A) (row j : nat) :
  (0 < s)%nat -> (s <= p)%nat -> length d = (h * s)%nat -> (h <= fuel)%nat ->
  (row < h)%nat -> (j < p)%nat ->
  nth (row * p + j) (flat_map (fun c => c ++ repeat x (p - s)) (chunks_exact_aux fuel s d)) x
  = if Nat.ltb j s then nth (row * s + j) d x else x.
Proof.
  intros Hs Hsp. revert fuel d row. induction h as [|h IH]; intros fuel d row Hd Hf Hr Hj; [lia|].
  destruct fuel as [|fuel]; [lia|]. cbn [chunks_exact_aux].
  destruct (Nat.ltb_spec (length d) s); [lia|]. cbn [flat_map].
  assert (Hc : length (firstn s d ++ repeat x (p - s)) = p)
    by (rewrite length_app, repeat_length, length_firstn; lia).
  destruct row as [|row].
  - simpl. destruct (Nat.ltb_spec j s).
    + rewrite <- app_assoc, app_nth1 by (rewrite length_firstn; lia).
      rewrite nth_firstn. destruct (Nat.ltb_spec j s); [reflexivity|lia].
    + rewrite app_nth1 by lia. rewrite app_nth2 by (rewrite length_firstn; lia).
      apply nth_repeat_same.
  - rewrite app_nth2 by (rewrite Hc; nia). rewrite Hc.
    replace (S row * p + j - p)%nat with (row * p + j)%nat by nia.
    rewrite (IH fuel (skipn s d) row); [|rewrite length_skipn; lia|lia|lia|lia].
    destruct (Nat.ltb j s); [|reflexivity].
    rewrite nth_skipn_add. f_equal. lia.
Qed.

Lemma chunks_exact_aux_padded_length_gen {A} (x : A) (n d k fuel : nat) (l : list A) :
  (0 < n)%nat -> length l = (k * n)%nat -> (k <= fuel)%nat ->
  length (flat_map (fun c => c ++ repeat x d) (chunks_exact_aux fuel n l)) = (k * (n + d))%nat.
Proof.
  intros Hn. revert fuel l. induction k as [|k IH]; intros fuel l Hl Hk.
  - destruct fuel as [|fuel]; simpl; [reflexivity|].
    destruct l; simpl in *; [|lia].
    destruct (Nat.ltb_spec 0 n); [reflexivity|lia].
  - destruct fuel as [|fuel]; [lia|]. simpl.
    destruct (Nat.ltb_spec (length l) n); [lia|].
    cbn [flat_map]. rewrite length_app, length_app, repeat_length, length_firstn.
    rewrite (IH fuel (skipn n l)); [lia| |lia].
    rewrite length_skipn. lia.
Qed.

(** A [BitmapMonoPacked] image whose data holds exactly [height * width]
    bits converts to a glyph with the byte-aligned layout: the bit at
    column [j] of row [row] (rows of [ceil(width/8) * 8] bits) is bit
    [row * width + j] of the packed stream when [row < height] and
    [j < width], and zero otherwise. *)
Theorem from_glyph_image_packed_rows (img : GlyphImage) (c : Z) :
  img_format img = BitmapMonoPacked -> 0 < img_width img -> 0 <= img_height img ->
  Z.of_nat (length (img_data img)) * 8 = img_height img * img_width img ->
  exists g, from_glyph_image img c = Ok g /\ glyph_inv g
    /\ height g = img_height img /\ width g = img_width img /\ grapheme g = [c]
    /\ forall row j, (j < Z.to_nat (ceil_div8 (img_width img) * 8))%nat ->
       nth (row * Z.to_nat (ceil_div8 (img_width img) * 8) + j) (view_bits (data g)) false
       = if Nat.ltb row (Z.to_nat (img_height img)) && Nat.ltb j (Z.to_nat (img_width img))
         then nth (row * Z.to_nat (img_width img) + j) (view_bits (img_data img)) false
         else false.
Proof.
  destruct img as [w h d fmt]; cbn [img_width img_height img_data img_format].
  intros -> Hw Hh Hlen. unfold from_glyph_image; cbn [img_width img_height img_data img_format].
  set (cw := ceil_div8 w).
  assert (Hcw : w <= cw * 8 < w + 8)
    by (unfold cw, ceil_div8; pose proof (Z.div_mod (w + 7) 8); pose proof (Z.mod_pos_bound (w + 7) 8); lia).
  set (s := Z.to_nat w). set (p := Z.to_nat (cw * 8)).
  assert (Hsp : (s <= p)%nat) by lia.
  assert (Hws : Z.to_nat (cw * 8 - w) = (p - s)%nat) by lia.
  rewrite Hws.
  assert (Hbits : length (view_bits d) = (Z.to_nat h * s)%nat)
    by (rewrite length_view_bits; nia).
  unfold chunks_exact. destruct (Nat.eqb_spec s 0) as [E|_]; [lia|]. cbn [bind].
  set (bits := flat_map _ _).
  assert (Hblen : length bits = (Z.to_nat h * p)%nat).
  { unfold bits. rewrite (chunks_exact_aux_padded_length_gen false s (p - s) (Z.to_nat h)); [|lia|exact Hbits|nia].
    f_equal. lia. }
  destruct (into_vec_aux_exact (Z.to_nat h * Z.to_nat cw) (length bits) bits) as [Hv Hl]; [rewrite Hblen; nia|nia|].
  eexists. split; [reflexivity|]. unfold glyph_inv. cbn [data height width grapheme].
  unfold into_vec. rewrite Hv, Hl. split; [fold cw; nia|]. repeat split.
  intros row j Hj.
  destruct (Nat.ltb_spec row (Z.to_nat h)); cbn [andb].
  - unfold bits. rewrite (chunks_exact_aux_padded_nth_gen false s p (Z.to_nat h)); try lia; [|nia].
    reflexivity.
  - apply nth_overflow. rewrite Hblen. nia.
Qed.

Definition packed_4x4 : GlyphImage := mkGlyphImage 4 4 [0x12; 0x34] BitmapMonoPacked.

Lemma from_glyph_image_packed_rows_witness :
  exists g, from_glyph_image packed_4x4 0x41 = Ok g /\ glyph_inv g
    /\ height g = img_height packed_4x4 /\ width g = img_width packed_4x4 /\ grapheme g = [0x41]
    /\ forall row j, (j < Z.to_nat (ceil_div8 (img_width packed_4x4) * 8))%nat ->
       nth (row * Z.to_nat (ceil_div8 (img_width packed_4x4) * 8) + j) (view_bits (data g)) false
       = if Nat.ltb row (Z.to_nat (img_height packed_4x4)) && Nat.ltb j (Z.to_nat (img_width packed_4x4))
         then nth (row * Z.to_nat (img_width packed_4x4) + j) (view_bits (img_data packed_4x4)) false
         else false.
Proof.
  apply from_glyph_image_packed_rows; [reflexivity|reflexivity|discriminate|reflexivity].
Defined.

(** ** Rasterization ([TtfParser::rasterize]) *)

(** [BitSlice::set(index, true)]: panics when [index] is out of range. *)
Definition set_bit {E} (i : nat) (bs : list bool) : outcome (list bool) E :=
  if Nat.ltb i (length bs) then Ok (firstn i bs ++ true :: skipn (S i) bs) else Panic.

(** [u32 -> i32] through [try_into().unwrap()]. *)
Definition i32_try_from_unwrap {E} (n : Z) : outcome Z E :=
  if n <? 2 ^ 31 then Ok n else Panic.

(** The bounds test of the [draw] callback, evaluated left to right with
    [||]; its branch only prints a message, but the [unwrap]s of
    [height.try_into()] and [width.try_into()] panic when reached on a
    dimension of 2^31 or more. *)
Definition raster_bounds_check {E} (width height x_signed y_signed : Z) : outcome unit E :=
  if (y_signed <? 0) || (x_signed <? 0) then Ok tt
  else
    h <- i32_try_from_unwrap height ;;
    if y_signed >=? h then Ok tt
    else
      _ <- i32_try_from_unwrap width ;;
      Ok tt.

(** One call of the [draw] callback, given the [i32] coordinates
    [x_signed], [y_signed] after the float alignment and the flag
    [v >= 0.5]; [as u32] on an [i32] is reduction modulo 2^32. *)
Definition raster_step (width height byte_aligned_width : Z)
  (acc : outcome (list bool) GlyphError) (px : Z * Z * bool) : outcome (list bool) GlyphError :=
  bs <- acc ;;
  let '(x_signed, y_signed, covered) := px in
  _ <- raster_bounds_check width height x_signed y_signed ;;
  let x := x_signed mod u32_max in
  let y := y_signed mod u32_max in
  if (x <? width) && (y <? height) && covered
  then set_bit (Z.to_nat (x + y * byte_aligned_width)) bs
  else Ok bs.

(** [TtfParser::rasterize] with the font abstracted: [width] and [height]
    are the canvas size read from the font and [pixels] the calls of the
    [draw] callback in order. [(8.0 * ceil(width / 8.0)) as u32] saturates
    at [u32::MAX]; the [u32] product [byte_aligned_width * height] wraps. *)
Definition rasterize (width height : Z) (pixels : list (Z * Z * bool)) (c : Z)
  : outcome Glyph GlyphError :=
  let byte_aligned_width := Z.min (ceil_div8 width * 8) (u32_max - 1) in
  let len := (byte_aligned_width * height) mod u32_max in
  bits <- fold_left (raster_step width height byte_aligned_width) pixels
            (Ok (repeat false (Z.to_nat len))) ;;
  Ok (mkGlyph height width (into_vec bits) [c]).

Definition raster_hit (width height baw : Z) (k : nat) (px : Z * Z * bool) : bool :=
  let '(x_signed, y_signed, covered) := px in
  let x := x_signed mod u32_max in
  let y := y_signed mod u32_max in
  (x <? width) && (y <? height) && covered && Nat.eqb k (Z.to_nat (x + y * baw)).

Lemma set_bit_ok {E} (i : nat) (bs : list bool) :
  (i < length bs)%nat ->
  exists bs', @set_bit E i bs = Ok bs' /\ length bs' = length bs
    /\ forall k, nth k bs' false = Nat.eqb k i || nth k bs false.
Proof.
  intro Hi. unfold set_bit. destruct (Nat.ltb_spec i (length bs)); [|lia].
  eexists. split; [reflexivity|]. split.
  - rewrite length_app, length_firstn. cbn [length]. rewrite length_skipn. lia.
  - intro k. destruct (Nat.lt_total k i) as [Hk|[->|Hk]].
    + rewrite app_nth1 by (rewrite length_firstn; lia). rewrite nth_firstn.
      destruct (Nat.ltb_spec k i); [|lia]. destruct (Nat.eqb_spec k i); [lia|reflexivity].
    + rewrite app_nth2 by (rewrite length_firstn; lia). rewrite length_firstn.
      replace (i - Nat.min i (length bs))%nat with 0%nat by lia. rewrite Nat.eqb_refl. reflexivity.
    + rewrite app_nth2 by (rewrite length_firstn; lia). rewrite length_firstn.
      replace (k - Nat.min i (length bs))%nat with (S (k - S i)) by lia. cbn [nth].
      rewrite nth_skipn_add. replace (S i + (k - S i))%nat with k by lia.
      destruct (Nat.eqb_spec k i); [lia|reflexivity].
Qed.

Lemma raster_bounds_check_ok {E} (w h xs ys : Z) :
  w < 2 ^ 31 -> h < 2 ^ 31 -> @raster_bounds_check E w h xs ys = Ok tt.
Proof.
  intros Hw Hh. unfold raster_bounds_check, i32_try_from_unwrap.
  rewrite (proj2 (Z.ltb_lt _ _) Hw), (proj2 (Z.ltb_lt _ _) Hh).
  destruct (_ || _); [reflexivity|]. cbn [bind]. destruct (_ >=? _); reflexivity.
Qed.

Lemma raster_fold (w h B : Z) (pixels : list (Z * Z * bool)) (bits : list bool) :
  0 <= w <= B -> w < 2 ^ 31 -> 0 <= h < 2 ^ 31 -> length bits = Z.to_nat (B * h) ->
  exists bits', fold_left (raster_step w h B) pixels (Ok bits) = Ok bits'
    /\ length bits' = length bits
    /\ forall k, nth k bits' false = nth k bits false || existsb (raster_hit w h B k) pixels.
Proof.
  intros Hw Hw31 Hh. revert bits. induction pixels as [|[[xs ys] on] pixels IH]; intros bits Hl.
  - exists bits. cbn. split; [reflexivity|]. split; [reflexivity|]. intro; symmetry; apply orb_false_r.
  - cbn [fold_left]. unfold raster_step at 2. cbn [bind].
    rewrite raster_bounds_check_ok by lia. cbn [bind].
    assert (Hx : 0 <= xs mod u32_max) by (apply Z.mod_pos_bound; reflexivity).
    assert (Hy : 0 <= ys mod u32_max) by (apply Z.mod_pos_bound; reflexivity).
    destruct ((xs mod u32_max <? w) && (ys mod u32_max <? h) && on) eqn:Ec.
    + apply andb_true_iff in Ec as [Ec Hon]. apply andb_true_iff in Ec as [Ex Ey].
      apply Z.ltb_lt in Ex. apply Z.ltb_lt in Ey. subst on.
      destruct (set_bit_ok (E := GlyphError) (Z.to_nat (xs mod u32_max + ys mod u32_max * B)) bits)
        as (bs1 & Hs & Hl1 & Hn1); [rewrite Hl; nia|].
      rewrite Hs. destruct (IH bs1) as (bits' & Hf & Hl' & Hn'); [congruence|].
      exists bits'. split; [exact Hf|]. split; [congruence|]. intro k.
      rewrite Hn', Hn1. cbn [existsb raster_hit].
      rewrite (proj2 (Z.ltb_lt _ _) Ex), (proj2 (Z.ltb_lt _ _) Ey). cbn [andb].
      rewrite orb_assoc, (orb_comm (Nat.eqb _ _)). reflexivity.
    + destruct (IH bits Hl) as (bits' & Hf & Hl' & Hn').
      exists bits'. split; [exact Hf|]. split; [exact Hl'|]. intro k.
      rewrite Hn'. cbn [existsb raster_hit]. rewrite Ec. reflexivity.
Qed.

Lemma existsb_and_const {A} (p q : A -> bool) (b : bool) (l : list A) :
  (forall x, p x = b && q x) -> existsb p l = b && existsb q l.
Proof.
  intro H. induction l as [|x l IH]; cbn; [destruct b; reflexivity|].
  rewrite H, IH. destruct b; reflexivity.
Qed.

Lemma digit_unique (B x y j r : Z) :
  0 <= x < B -> 0 <= j < B -> 0 <= y -> 0 <= r -> x + y * B = j + r * B -> x = j /\ y = r.
Proof.
  intros Hx Hj Hy Hr E. destruct (Z.lt_total y r) as [Hl|[->|Hl]]; [nia| |nia]. lia.
Qed.

(** On a canvas whose width (the rounded-up advance) and height (the font's
    pixel height) are below 2^31, so that the [try_into().unwrap()]s of the
    bounds test never panic, and whose [u32] bit count does not wrap,
    [TtfParser::rasterize] yields a glyph with the byte-aligned layout, on
    rows of [ceil(width/8) * 8] bits: a bit is set exactly when it lies in
    the [width x height] canvas and some call of [draw] reported that
    pixel, at coordinates taken modulo 2^32, with coverage [>= 0.5]; every
    padding bit is zero. *)
Theorem rasterize_bits (w h : Z) (pixels : list (Z * Z * bool)) (c : Z) :
  0 <= w < 2 ^ 31 -> 0 <= h < 2 ^ 31 -> ceil_div8 w * 8 * h < u32_max ->
  exists g, rasterize w h pixels c = Ok g /\ glyph_inv g
    /\ height g = h /\ width g = w /\ grapheme g = [c]
    /\ forall row j, (j < Z.to_nat (ceil_div8 w * 8))%nat ->
       nth (row * Z.to_nat (ceil_div8 w * 8) + j) (view_bits (data g)) false
       = Nat.ltb j (Z.to_nat w) && Nat.ltb row (Z.to_nat h)
         && existsb (fun '(xs, ys, on) => on && (xs mod u32_max =? Z.of_nat j)
                                              && (ys mod u32_max =? Z.of_nat row)) pixels.
Proof.
  intros Hw Hh Hsz. unfold rasterize.
  set (C := ceil_div8 w).
  assert (HC : w <= C * 8 < w + 8)
    by (unfold C, ceil_div8; pose proof (Z.div_mod (w + 7) 8); pose proof (Z.mod_pos_bound (w + 7) 8); lia).
  set (B := Z.min (C * 8) (u32_max - 1)).
  assert (HB : h = 0 \/ B = C * 8).
  { destruct (Z.eq_dec h 0) as [|Hh0]; [left; assumption|right]. unfold B. nia. }
  assert (HwB : w <= B) by (unfold B, u32_max in *; lia).
  assert (HB0 : 0 <= B) by lia.
  assert (HBh : B * h = C * 8 * h) by (destruct HB as [->| ->]; lia).
  assert (Hlen : (B * h) mod u32_max = B * h) by (apply Z.mod_small; nia).
  rewrite Hlen.
  destruct (raster_fold w h B pixels (repeat false (Z.to_nat (B * h)))) as (bits & Hf & Hl & Hn);
    [lia|lia|lia|apply repeat_length|].
  rewrite Hf. cbn [bind]. rewrite repeat_length in Hl.
  destruct (into_vec_aux_exact (Z.to_nat (C * h)) (length bits) bits) as [Hv Hvl];
    [rewrite Hl, HBh; nia|nia|].
  eexists. split; [reflexivity|]. unfold glyph_inv, into_vec. cbn [data height width grapheme].
  rewrite Hv, Hvl. split; [fold C; nia|]. repeat split.
  intros row j Hj. rewrite Hn, nth_repeat_same. cbn [orb].
  set (k := (row * Z.to_nat (C * 8) + j)%nat).
  rewrite (andb_comm (Nat.ltb j _)).
  apply existsb_and_const. intros [[xs ys] on]. cbn [raster_hit].
  assert (Hx : 0 <= xs mod u32_max) by (apply Z.mod_pos_bound; reflexivity).
  assert (Hy : 0 <= ys mod u32_max) by (apply Z.mod_pos_bound; reflexivity).
  set (x := xs mod u32_max) in *. set (y := ys mod u32_max) in *.
  destruct on; [|rewrite !andb_false_r; reflexivity]. rewrite !andb_true_r.
  destruct (Z.ltb_spec x w) as [Hxw|Hxw]; destruct (Z.ltb_spec y h) as [Hyh|Hyh]; cbn [andb].
  - destruct HB as [->|HB]; [lia|].
    destruct (Nat.eqb_spec k (Z.to_nat (x + y * B))) as [Ek|Ek].
    + assert (E : x + y * B = Z.of_nat j + Z.of_nat row * B) by (unfold k in Ek; nia).
      destruct (digit_unique B x y (Z.of_nat j) (Z.of_nat row)) as [-> ->]; try lia.
      destruct (Nat.ltb_spec row (Z.to_nat h)); [|lia].
      destruct (Nat.ltb_spec j (Z.to_nat w)); [|lia]. rewrite !Z.eqb_refl. reflexivity.
    + destruct (Z.eqb_spec x (Z.of_nat j)); destruct (Z.eqb_spec y (Z.of_nat row));
        rewrite ?andb_false_r; try reflexivity.
      exfalso. apply Ek. unfold k. subst x y. nia.
  - destruct (Nat.ltb_spec row (Z.to_nat h)); destruct (Z.eqb_spec y (Z.of_nat row));
      cbn [andb]; rewrite ?andb_false_r; try reflexivity; lia.
  - destruct (Nat.ltb_spec j (Z.to_nat w)); destruct (Z.eqb_spec x (Z.of_nat j));
      cbn [andb]; rewrite ?andb_false_r; try reflexivity; lia.
  - destruct (Nat.ltb_spec j (Z.to_nat w)); destruct (Z.eqb_spec x (Z.of_nat j));
      cbn [andb]; rewrite ?andb_false_r; try reflexivity; lia.
Qed.

Definition pixels_sample : list (Z * Z * bool) :=
  [(1, 0, true); (-1, 2, true); (4, 2, false); (4, 1, true)].

Lemma rasterize_bits_witness :
  exists g, rasterize 5 3 pixels_sample 0x41 = Ok g /\ glyph_inv g
    /\ height g = 3 /\ width g = 5 /\ grapheme g = [0x41]
    /\ forall row j, (j < Z.to_nat (ceil_div8 5 * 8))%nat ->
       nth (row * Z.to_nat (ceil_div8 5 * 8) + j) (view_bits (data g)) false
       = Nat.ltb j (Z.to_nat 5) && Nat.ltb row (Z.to_nat 3)
         && existsb (fun '(xs, ys, on) => on && (xs mod u32_max =? Z.of_nat j)
                                              && (ys mod u32_max =? Z.of_nat row)) pixels_sample.
Proof.
  apply rasterize_bits; unfold u32_max; [lia|lia|vm_compute; reflexivity].
Defined.

Lemma raster_fold_panic (w h B : Z) (pixels : list (Z * Z * bool)) :
  fold_left (raster_step w h B) pixels Panic = Panic.
Proof. induction pixels as [|px pixels IH]; [reflexivity|]. exact IH. Qed.

(** When the first call of [draw] reports non-negative coordinates and the
    canvas height is 2^31 or more, or the pixel lies above that height and
    the width is 2^31 or more, the bounds test of [TtfParser::rasterize]
    panics on [try_into().unwrap()]. *)
Theorem rasterize_huge_canvas_panics (w h xs ys : Z) (on : bool)
    (pixels : list (Z * Z * bool)) (c : Z) :
  0 <= xs -> 0 <= ys -> (2 ^ 31 <= h \/ (ys < h /\ 2 ^ 31 <= w)) ->
  rasterize w h ((xs, ys, on) :: pixels) c = Panic.
Proof.
  intros Hx Hy Hwh. unfold rasterize. cbn [fold_left].
  unfold raster_step at 2. cbn [bind].
  assert (E : @raster_bounds_check GlyphError w h xs ys = Panic).
  { unfold raster_bounds_check, i32_try_from_unwrap.
    replace ((ys <? 0) || (xs <? 0)) with false
      by (symmetry; apply orb_false_iff; split; apply Z.ltb_ge; lia).
    destruct Hwh as [Hh|[Hyh Hw]].
    - destruct (Z.ltb_spec h (2 ^ 31)); [lia|reflexivity].
    - destruct (Z.ltb_spec h (2 ^ 31)); [|reflexivity]. cbn [bind].
      destruct (Z.geb_spec ys h); [lia|].
      destruct (Z.ltb_spec w (2 ^ 31)); [lia|reflexivity]. }
  rewrite E. cbn [bind]. rewrite raster_fold_panic. reflexivity.
Qed.

Lemma rasterize_huge_canvas_panics_witness :
  rasterize 0 (2 ^ 31) [(0, 0, true)] 0x41 = Panic
  /\ rasterize (2 ^ 31) 16 [(3, 2, false); (1, 1, true)] 0x41 = Panic.
Proof.
  split.
  - apply rasterize_huge_canvas_panics; [lia|lia|left; lia].
  - apply rasterize_huge_canvas_panics; [lia|lia|right; lia].
Defined.

(** ** Whole-row round trip through [convert_format] *)

Lemma byte_of_bits_of_byte (b : Z) : 0 <= b < 256 -> byte_of_bits (bits_of_byte b) = b.
Proof.
  intro Hb.
  assert (H : forallb (fun b => Z.eqb (byte_of_bits (bits_of_byte b)) b)
                (map Z.of_nat (seq 0 256)) = true) by (vm_compute; reflexivity).
  rewrite forallb_forall in H.
  assert (Hin : In b (map Z.of_nat (seq 0 256))).
  { apply in_map_iff. exists (Z.to_nat b). split; [lia|]. apply in_seq. lia. }
  apply Z.eqb_eq, H, Hin.
Qed.

Lemma into_vec_aux_view_bits (fuel : nat) (d : list Z) :
  Forall (fun b => 0 <= b < 256) d -> (length d <= fuel)%nat -> into_vec_aux fuel (view_bits d) = d.
Proof.
  intro Hd. revert fuel. induction Hd as [|b d Hb _ IH]; intros fuel Hf.
  - destruct fuel; reflexivity.
  - destruct fuel as [|fuel]; [cbn in Hf; lia|].
    unfold view_bits. cbn [flat_map]. fold (view_bits d).
    change (bits_of_byte b ++ view_bits d) with
      (Z.testbit b (Z.of_nat 7) :: (tl (bits_of_byte b) ++ view_bits d)).
    cbn [into_vec_aux]. change (Z.testbit b (Z.of_nat 7) :: tl (bits_of_byte b) ++ view_bits d)
      with (bits_of_byte b ++ view_bits d).
    rewrite firstn_app, skipn_app, length_bits_of_byte.
    rewrite firstn_all2, skipn_all2 by (rewrite length_bits_of_byte; lia).
    replace (8 - 8)%nat with 0%nat by reflexivity. cbn [firstn skipn app].
    rewrite app_nil_r, byte_of_bits_of_byte by exact Hb. rewrite IH by (cbn in Hf; lia).
    reflexivity.
Qed.

Lemma into_vec_view_bits (d : list Z) :
  Forall (fun b => 0 <= b < 256) d -> into_vec (view_bits d) = d.
Proof.
  intro Hd. apply into_vec_aux_view_bits; [exact Hd|]. rewrite length_view_bits. lia.
Qed.

Lemma chunks_aux_concat {A} (n fuel : nat) (bl : list (list A)) :
  (0 < n)%nat -> Forall (fun b => length b = n) bl -> (length bl <= fuel)%nat ->
  chunks_aux fuel n (concat bl) = bl.
Proof.
  intros Hn Hb. revert fuel. induction Hb as [|b bl Hlb _ IH]; intros fuel Hf.
  - destruct fuel; reflexivity.
  - destruct fuel as [|fuel]; [cbn in Hf; lia|]. cbn [concat].
    destruct b as [|x b']; [cbn in Hlb; lia|]. cbn [chunks_aux app].
    change (x :: b' ++ concat bl) with ((x :: b') ++ concat bl).
    rewrite firstn_app, skipn_app, Hlb, firstn_all2, skipn_all2 by lia.
    rewrite Nat.sub_diag. cbn [firstn skipn app]. rewrite app_nil_r, IH by (cbn in Hf; lia).
    reflexivity.
Qed.

Lemma split_rows {A} (n r : nat) (l : list A) :
  length l = (r * n)%nat ->
  exists rows, l = concat rows /\ Forall (fun b => length b = n) rows /\ length rows = r.
Proof.
  revert l. induction r as [|r IH]; intros l Hl.
  - exists []. destruct l; [|discriminate]. auto.
  - destruct (IH (skipn n l)) as (rows & Hc & Hf & Hlen); [rewrite length_skipn; lia|].
    exists (firstn n l :: rows). split; [|split].
    + cbn [concat]. rewrite <- Hc. symmetry. apply firstn_skipn.
    + constructor; [rewrite length_firstn; lia|exact Hf].
    + cbn. congruence.
Qed.

Lemma length_concat_uniform {A} (n : nat) (bl : list (list A)) :
  Forall (fun b => length b = n) bl -> length (concat bl) = (length bl * n)%nat.
Proof.
  induction 1 as [|b bl Hb _ IH]; [reflexivity|].
  cbn [concat length]. rewrite length_app, Hb, IH. lia.
Qed.

Lemma concat_intersperse_trail {A} (p : list A) (cs : list (list A)) :
  cs <> [] -> concat (intersperse p cs ++ [p]) = flat_map (fun row => row ++ p) cs.
Proof.
  induction cs as [|x cs IH]; intro H; [contradiction|].
  destruct cs as [|y cs].
  - cbn. rewrite !app_nil_r. reflexivity.
  - change (intersperse p (x :: y :: cs)) with (x :: p :: intersperse p (y :: cs)).
    cbn [app concat flat_map]. rewrite IH by discriminate. cbn [flat_map].
    rewrite <- !app_assoc. reflexivity.
Qed.

(** For a width that is not a multiple of 8 (and whose padded width fits
    the [u16] arithmetic), a non-empty packed bitmap that holds a whole
    number of rows survives the round trip [BitmapMonoPacked -> BitmapMono
    -> BitmapMonoPacked] unchanged; for a multiple of 8 both directions keep
    the data. *)
Theorem convert_format_whole_rows_round_trip (w : Z) (d : list Z) :
  0 < w -> ceil_div8 w * 8 < 2 ^ 16 -> Forall (fun b => 0 <= b < 256) d -> d <> [] ->
  Nat.modulo (8 * length d) (Z.to_nat w) = 0%nat ->
  (m <- @packed_to_mono unit w d ;; @mono_to_packed unit w m) = Ok d.
Proof.
  intros Hw Hu Hd Hne Hmod. unfold packed_to_mono, mono_to_packed.
  destruct (Z.eqb_spec (w mod 8) 0) as [E8|E8]; cbn [negb]; [reflexivity|].
  set (C := ceil_div8 w) in *.
  assert (HC : w <= C * 8 < w + 8)
    by (unfold C, ceil_div8; pose proof (Z.div_mod (w + 7) 8); pose proof (Z.mod_pos_bound (w + 7) 8); lia).
  assert (Hpw : padded_width_u16 w = C * 8)
    by (unfold padded_width_u16, u16_max; fold C; apply Z.mod_small; lia).
  rewrite Hpw. rewrite (Z.mod_small (C * 8 - w) u16_max) by (unfold u16_max; lia).
  set (s := Z.to_nat w). set (p := Z.to_nat (C * 8)).
  assert (Hs : (0 < s)%nat) by lia.
  set (pad := repeat false (Z.to_nat (C * 8 - w))).
  assert (Hpad : length pad = (p - s)%nat) by (unfold pad; rewrite repeat_length; lia).
  set (r := (8 * length d / s)%nat).
  assert (Hbits : length (view_bits d) = (r * s)%nat).
  { fold s in Hmod. rewrite length_view_bits. unfold r.
    pose proof (Nat.div_mod (8 * length d) s ltac:(lia)) as Hdm. rewrite Hmod in Hdm. lia. }
  destruct (split_rows s r (view_bits d) Hbits) as (rows & Hrows & Hrl & Hlr).
  assert (Hr : (1 <= r)%nat).
  { destruct d; [contradiction|]. cbn [length] in Hbits. rewrite length_view_bits in Hbits.
    cbn [length] in Hbits. destruct r; lia. }
  unfold chunks. destruct (Nat.eqb_spec s 0); [lia|]. cbn [bind].
  rewrite Hbits, Hrows. rewrite (chunks_aux_concat s); [|lia|exact Hrl|nia].
  rewrite concat_intersperse_trail by (destruct rows; cbn in Hlr; [lia|discriminate]).
  rewrite flat_map_concat_map.
  assert (Hpl : Forall (fun b => length b = p) (map (fun row => row ++ pad) rows)).
  { apply Forall_map. eapply Forall_impl; [|exact Hrl]. intros row Hrow.
    rewrite length_app, Hpad, Hrow. lia. }
  destruct (into_vec_aux_exact (r * Z.to_nat C) (length (concat (map (fun row => row ++ pad) rows)))
              (concat (map (fun row => row ++ pad) rows))) as [Hv _].
  { rewrite (length_concat_uniform p) by exact Hpl. rewrite length_map, Hlr. unfold p. nia. }
  { rewrite (length_concat_uniform p) by exact Hpl. rewrite length_map, Hlr. unfold p. nia. }
  unfold into_vec at 2. rewrite Hv.
  destruct (Nat.eqb_spec p 0); [lia|]. cbn [bind].
  rewrite (chunks_aux_concat p); [|lia|exact Hpl|].
  2:{ unfold into_vec. rewrite Hv, (length_concat_uniform p) by exact Hpl. rewrite length_map. nia. }
  assert (Hsl : map_outcome (@slice_prefix bool unit s) (map (fun row => row ++ pad) rows) = Ok rows).
  { clear Hrows Hlr Hpl Hv. induction Hrl as [|row rows Hrow _ IH]; [reflexivity|].
    cbn [map map_outcome]. unfold slice_prefix at 1.
    destruct (Nat.leb_spec s (length (row ++ pad))) as [_|Hc]; [|rewrite length_app in Hc; lia].
    rewrite firstn_app, Hrow, Nat.sub_diag, firstn_all2 by lia. cbn [firstn]. rewrite app_nil_r.
    cbn [bind]. rewrite IH. reflexivity. }
  rewrite Hsl. cbn [bind]. rewrite <- Hrows, into_vec_view_bits by exact Hd. reflexivity.
Qed.

Lemma convert_format_whole_rows_round_trip_witness :
  (m <- @packed_to_mono unit 3 [0xA5; 0x3C; 0x0F] ;; @mono_to_packed unit 3 m)
  = Ok [0xA5; 0x3C; 0x0F].
Proof.
  apply convert_format_whole_rows_round_trip.
  - lia.
  - vm_compute. reflexivity.
  - repeat constructor; lia.
  - discriminate.
  - reflexivity.
Defined.

(** ** [GlyphImageOwned::overlay] (file [glyph_image_owned.rs]) *)

Section Overlay.

(** [ab_glyph::Point] holds two [f32]; [overlay] only compares origins with
    [!=], which is kept abstract. *)
Variable Point : Type.
Variable point_eqb : Point -> Point -> bool.

Record GlyphImageOwned := mkGlyphImageOwned {
  origin : Point;
  own_width : Z;          (* u16 *)
  own_height : Z;         (* u16 *)
  pixels_per_em : Z;      (* u16 *)
  own_data : list Z;
  own_format : GlyphImageFormat
}.

Definition format_eqb (f g : GlyphImageFormat) : bool :=
  match f, g with
  | Png, Png | BitmapMono, BitmapMono | BitmapMonoPacked, BitmapMonoPacked
  | BitmapGray2, BitmapGray2 | BitmapGray2Packed, BitmapGray2Packed
  | BitmapGray4, BitmapGray4 | BitmapGray4Packed, BitmapGray4Packed
  | BitmapGray8, BitmapGray8 | BitmapPremulBgra32, BitmapPremulBgra32 => true
  | _, _ => false
  end.

Definition with_data (img : GlyphImageOwned) (d : list Z) (fmt : GlyphImageFormat)
  : GlyphImageOwned :=
  mkGlyphImageOwned (origin img) (own_width img) (own_height img)
    (pixels_per_em img) d fmt.

(** [GlyphImageOwned::convert_format]; the [Box<dyn Error>] is a unit error. *)
Definition convert_format (img : GlyphImageOwned) (fmt : GlyphImageFormat)
  : outcome GlyphImageOwned unit :=
  match own_format img, fmt with
  | BitmapMonoPacked, BitmapMono =>
      d <- packed_to_mono (own_width img) (own_data img) ;;
      Ok (with_data img d fmt)
  | BitmapMono, BitmapMonoPacked =>
      d <- mono_to_packed (own_width img) (own_data img) ;;
      Ok (with_data img d fmt)
  | f, g =>
      if format_eqb f g then Ok (with_data img (own_data img) fmt) else Err tt
  end.

(** [zip] of the two bit views, mapped with [&&] and collected. *)
Definition and_bits (a b : list bool) : list bool :=
  map (fun p => fst p && snd p) (combine a b).

Definition overlay (self other : GlyphImageOwned) : outcome GlyphImageOwned unit :=
  other <- convert_format other (own_format self) ;;
  if negb (own_width self =? own_width other)
     || negb (own_height self =? own_height other)
     || negb (pixels_per_em self =? pixels_per_em other)
     || negb (point_eqb (origin self) (origin other)) then Err tt
  else
    match own_format self with
    | BitmapMono | BitmapMonoPacked =>
        Ok (with_data self
              (into_vec (and_bits (view_bits (own_data self)) (view_bits (own_data other))))
              (own_format self))
    | _ => Err tt
    end.

End Overlay.

Arguments mkGlyphImageOwned {Point}.
Arguments overlay {Point}.

Lemma land_byte_range (x y : Z) :
  0 <= x < 256 -> 0 <= y < 256 -> 0 <= Z.land x y < 256.
Proof.
  intros Hx Hy.
  assert (E : Z.land x y = Z.land x y mod 2 ^ 8).
  { rewrite <- Z.land_ones by lia. rewrite <- Z.land_assoc.
    rewrite (Z.land_ones y 8) by lia. rewrite Z.mod_small by (cbn; lia). reflexivity. }
  rewrite E. apply Z.mod_pos_bound. cbn. lia.
Qed.

Lemma and_bits_of_byte (x y : Z) :
  and_bits (bits_of_byte x) (bits_of_byte y) = bits_of_byte (Z.land x y).
Proof.
  unfold and_bits, bits_of_byte. cbn [seq combine map fst snd].
  rewrite !Z.land_spec. reflexivity.
Qed.

Lemma and_bits_app (a1 a2 b1 b2 : list bool) :
  length a1 = length b1 ->
  and_bits (a1 ++ a2) (b1 ++ b2) = and_bits a1 b1 ++ and_bits a2 b2.
Proof.
  revert b1. induction a1 as [|x a1 IH]; intros [|y b1] H; try discriminate.
  - reflexivity.
  - unfold and_bits in *. cbn. f_equal. apply IH. cbn in H. lia.
Qed.

Lemma and_bits_view_bits (a b : list Z) :
  and_bits (view_bits a) (view_bits b)
  = view_bits (map (fun p => Z.land (fst p) (snd p)) (combine a b)).
Proof.
  revert b. induction a as [|x a IH]; intros [|y b].
  - reflexivity.
  - reflexivity.
  - unfold and_bits. cbn [view_bits flat_map combine map].
    rewrite combine_nil. reflexivity.
  - unfold view_bits in *. cbn [flat_map combine map fst snd].
    rewrite and_bits_app by reflexivity. rewrite and_bits_of_byte, IH. reflexivity.
Qed.

Lemma Forall_combine_land (a b : list Z) :
  Forall (fun x => 0 <= x < 256) a -> Forall (fun x => 0 <= x < 256) b ->
  Forall (fun x => 0 <= x < 256) (map (fun p => Z.land (fst p) (snd p)) (combine a b)).
Proof.
  intros Ha. revert b. induction Ha as [|x a Hx _ IH]; intros [|y b] Hb; cbn.
  - constructor.
  - constructor.
  - constructor.
  - inversion Hb; subst.
    constructor; [apply land_byte_range; assumption | apply IH; assumption].
Qed.

(** Overlaying two bitmap images of one monochrome format and one layout
    keeps [self]'s layout and combines the bitmaps byte by byte with AND
    (the pixels set in both images), up to the shorter of the two. *)
Theorem overlay_bytewise_and (Point : Type) (point_eqb : Point -> Point -> bool)
    (o1 o2 : Point) (w h ppem : Z) (fmt : GlyphImageFormat) (d1 d2 : list Z) :
  (fmt = BitmapMono \/ fmt = BitmapMonoPacked) ->
  point_eqb o1 o2 = true ->
  Forall (fun x => 0 <= x < 256) d1 -> Forall (fun x => 0 <= x < 256) d2 ->
  overlay point_eqb (mkGlyphImageOwned o1 w h ppem d1 fmt)
                    (mkGlyphImageOwned o2 w h ppem d2 fmt)
  = Ok (mkGlyphImageOwned o1 w h ppem
          (map (fun p => Z.land (fst p) (snd p)) (combine d1 d2)) fmt).
Proof.
  intros Hf Ho H1 H2.
  unfold overlay, convert_format, with_data.
  destruct Hf as [-> | ->]; cbn [bind format_eqb own_format own_data own_width own_height
    pixels_per_em origin]; rewrite Ho, !Z.eqb_refl; cbn [negb orb];
    rewrite and_bits_view_bits, into_vec_view_bits by (apply Forall_combine_land; assumption);
    reflexivity.
Qed.

Lemma overlay_bytewise_and_witness :
  overlay Z.eqb (mkGlyphImageOwned 0 5 2 12 [0xF8; 0x88] BitmapMono)
                (mkGlyphImageOwned 0 5 2 12 [0x70; 0xF8] BitmapMono)
  = Ok (mkGlyphImageOwned 0 5 2 12
          (map (fun p => Z.land (fst p) (snd p)) (combine [0xF8; 0x88] [0x70; 0xF8]))
          BitmapMono).
Proof.
  apply overlay_bytewise_and.
  - left; reflexivity.
  - reflexivity.
  - repeat constructor; lia.
  - repeat constructor; lia.
Defined.
